(** * Upload orchestration pipeline of the Slack file handler

    A shallow embedding of the file-upload handler (the module exporting
    [handleFileUpload] and [initialize]), followed by the properties of the
    upload pipeline: the batch orchestrator, the admission ledger, the
    status markers and the stored names.

    Conventions of the embedding.

    - Every interaction with the outside of the module (the Slack client,
      [fetch], the storage module, the logger, [Date.now], [crypto]) appends
      one [Effect] to the trace carried by the [Store]; what the outside
      answers is decided by a [World], a family of functions of the trace
      recorded so far.  A call that rejects or throws is a [Throw].
    - An [async] function is a computation in the state-and-exception
      monad [M]; [await] is sequencing.  One invocation runs at a time.
    - A JavaScript [Number] is an IEEE 754 binary64 value ([spec_float]
      with precision 53 and maximal exponent 1024), and its arithmetic is
      that of [SpecFloat].
    - A string is the sequence of its code units, each below 256; the
      bullet of the summary message is written as its UTF-8 bytes.
    - Sizes and clock readings are integers ([Z]). *)

From Stdlib Require Import ZArith NArith String Ascii List Bool Lia.
From Stdlib Require Import DecimalString SpecFloat.
From Stdlib Require DecimalZ DecimalPos.
From stdpp Require Import base option list gmap strings.

Local Open Scope string_scope.
Local Open Scope list_scope.
Local Open Scope Z_scope.

(** ** JavaScript numbers *)

Module Number.

Definition prec : Z := 53.
Definition emax : Z := 1024.

Definition t : Type := spec_float.

Definition NaN : t := S754_nan.

(** The Number with the value of an integer (exact below 2^53). *)
Definition of_Z (z : Z) : t := binary_normalize prec emax z 0 false.

Definition mul (x y : t) : t := SFmul prec emax x y.
Definition sub (x y : t) : t := SFsub prec emax x y.
Definition div (x y : t) : t := SFdiv prec emax x y.

(** [x > y] of JavaScript: false as soon as one side is NaN. *)
Definition gt (x y : t) : bool := SFltb y x.

End Number.

(** ** Strings: decimal and hexadecimal renderings *)

(** [String(n)] for an integer Number, as a template literal renders it. *)
Definition dec (z : Z) : string := NilZero.string_of_int (Z.to_int z).

Definition hex_digit (n : N) : ascii :=
  if (n <? 10)%N then ascii_of_N (48 + n) else ascii_of_N (87 + n).

Definition hex_byte (b : Byte.byte) : string :=
  let n := Byte.to_N b in
  String (hex_digit (n / 16)) (String (hex_digit (n mod 16)) EmptyString).

(** [buffer.toString('hex')]: two lowercase digits per byte. *)
Fixpoint to_hex (bs : list Byte.byte) : string :=
  match bs with
  | [] => ""
  | b :: bs' => hex_byte b +:+ to_hex bs'
  end.

(** ** The builtin [parseFloat]

    The longest prefix of the trimmed input that is a [StrDecimalLiteral]
    is read as a decimal and rounded to the nearest binary64 value; when
    there is no such prefix the result is NaN. *)

Module ParseFloat.

Definition is_digit (c : ascii) : bool :=
  let n := N_of_ascii c in ((48 <=? n) && (n <=? 57))%N.

Definition digit_val (c : ascii) : Z := Z.of_N (N_of_ascii c) - 48.

Definition is_space (c : ascii) : bool :=
  let n := N_of_ascii c in
  ((n =? 9) || (n =? 10) || (n =? 11) || (n =? 12) || (n =? 13)
   || (n =? 32) || (n =? 160))%N.

Fixpoint trim_start (s : string) : string :=
  match s with
  | String c s' => if is_space c then trim_start s' else s
  | EmptyString => s
  end.

(** Reads a run of digits: its value on top of [acc], how many digits
    were read, and the rest of the input. *)
Fixpoint digits (s : string) (acc : Z) (n : nat) : Z * nat * string :=
  match s with
  | String c s' =>
      if is_digit c then digits s' (10 * acc + digit_val c) (S n)
      else (acc, n, s)
  | EmptyString => (acc, n, s)
  end.

(** The exponent part, taken only when at least one digit follows. *)
Definition exponent (s : string) : Z :=
  match s with
  | String c s' =>
      if Ascii.eqb c "e" || Ascii.eqb c "E" then
        let '(neg, s'') :=
          match s' with
          | String "-" r => (true, r)
          | String "+" r => (false, r)
          | _ => (false, s')
          end in
        let '(v, n, _) := digits s'' 0 0%nat in
        match n with
        | O => 0
        | _ => if (neg : bool) then - v else v
        end
      else 0
  | EmptyString => 0
  end.

(** [m * 10^e], rounded to nearest (ties to even). *)
Definition of_decimal (neg : bool) (m e : Z) : Number.t :=
  match m with
  | Z0 => S754_zero neg
  | Zpos p =>
      if 0 <=? e then
        binary_normalize Number.prec Number.emax
          ((if neg then -1 else 1) * (m * 10 ^ e)) 0 false
      else
        Number.div (S754_finite neg p 0)
                   (S754_finite false (Z.to_pos (10 ^ (- e))) 0)
  | Zneg _ => S754_nan
  end.

Definition unsigned (neg : bool) (s : string) : Number.t :=
  if String.prefix "Infinity" s then S754_infinity neg
  else
    let '(i, ni, r) := digits s 0 0%nat in
    let '(m, nf, r') :=
      match r with
      | String "." r1 => digits r1 i 0%nat
      | _ => (i, 0%nat, r)
      end in
    match ni, nf with
    | O, O => S754_nan
    | _, _ => of_decimal neg m (exponent r' - Z.of_nat nf)
    end.

Definition parseFloat (s : string) : Number.t :=
  match trim_start s with
  | String "-" r => unsigned true r
  | String "+" r => unsigned false r
  | r => unsigned false r
  end.

End ParseFloat.

Definition parseFloat : string -> Number.t := ParseFloat.parseFloat.


(** ** Values exchanged with the outside *)

(** What a rejected call throws.  [data] is the response body that the
    Slack client attaches to a platform error ([error.data.error] names
    the error); a transport error has no [data]. *)
Record ErrorData := { error : string }.
Record JsError := { message : string; data : option ErrorData }.

(** [new Error(msg)]. *)
Definition Error (msg : string) : JsError := {| message := msg; data := None |}.

(** The TypeError of a property read on [undefined]. *)
Definition TypeError (msg : string) : JsError := {| message := msg; data := None |}.

Inductive Completion (A : Type) : Type :=
| Normal (a : A)
| Throw (e : JsError).
Arguments Normal {A} a.
Arguments Throw {A} e.

Record FileRef := {
  file_name : string;
  file_size : Z;
  file_url_private : string;
  file_mimetype : string
}.

Record Message := {
  msg_ts : string;
  msg_user : string;
  msg_files : option (list FileRef)
}.

Record SlackEvent := {
  file_id : string;
  channel_id : string;
  event_ts : string
}.

Record Share := { share_ts : string }.

Record Shares := {
  shares_public : option (gmap string (list Share));
  shares_private : option (gmap string (list Share))
}.

Record FileObject := { file_shares : option Shares }.

Record FilesInfoResponse := {
  info_ok : bool;
  info_file : option FileObject
}.

Record HistoryResponse := {
  history_ok : bool;
  history_messages : list Message
}.

(** The response of [fetch]: [response.ok], and what [response.buffer()]
    will complete with. *)
Record Response := {
  response_ok : bool;
  response_buffer : Completion (list Byte.byte)
}.

(** An entry of [uploadedFiles]. *)
Record UploadedFile := {
  up_name : string;
  up_url : string;
  up_contentType : string
}.

Record BatchResult := {
  uploadedFiles : list UploadedFile;
  failedFiles : list string
}.

(** ** Effects and the world *)

Inductive Level := LDebug | LInfo | LError.

Inductive LogArg :=
| NoArg
| StrArg (s : string)
| ErrArg (e : JsError).

Inductive Effect :=
| DateNow
| RandomBytes (n : nat)
| Log (level : Level) (text : string) (arg : LogArg)
| Fetch (url authorization : string)
| UploadToStorage (dir name : string) (buffer : list Byte.byte) (contentType : string)
| FilesInfo (file : string)
| ConversationsHistory (channel latest : string)
| ReactionsAdd (name timestamp channel : string)
| ReactionsRemove (name timestamp channel : string)
| ChatPostMessage (channel thread_ts text : string).

Abbreviation Trace := (list Effect).

(** The collaborators of the module.  Each answer may depend on all that
    happened before the call.  [generateFileUrl] comes from [./utils] and
    [uploadToStorage] from [./storage]; both are outside this model and
    taken as given. *)
Record World := {
  clock : Trace -> Z;
  entropy : Trace -> nat -> Byte.byte;
  SLACK_BOT_TOKEN : string;
  generateFileUrl : string -> string -> string;
  fetch : Trace -> string -> string -> Completion Response;
  uploadToStorage :
    Trace -> string -> string -> list Byte.byte -> string -> Completion bool;
  files_info : Trace -> string -> Completion FilesInfoResponse;
  conversations_history : Trace -> string -> string -> Completion HistoryResponse;
  reactions_add : Trace -> string -> string -> string -> Completion unit;
  reactions_remove : Trace -> string -> string -> string -> Completion unit;
  chat_postMessage : Trace -> string -> string -> string -> Completion unit
}.

(** ** Module state *)

Record Store := {
  processedMessages : gmap string bool;
  uploadLimit : option nat;
  trace : Trace
}.

(** The state when the module is loaded: [new Map()], and [uploadLimit]
    still undefined. *)
Definition loaded : Store :=
  {| processedMessages := ∅; uploadLimit := None; trace := [] |}.

(** ** The monad of asynchronous code *)

Definition M (S A : Type) : Type := S -> Completion A * S.

Definition ret {S A} (a : A) : M S A := fun s => (Normal a, s).

Definition bind {S A B} (m : M S A) (k : A -> M S B) : M S B :=
  fun s =>
    match m s with
    | (Normal a, s') => k a s'
    | (Throw e, s') => (Throw e, s')
    end.

Definition throw {S A} (e : JsError) : M S A := fun s => (Throw e, s).

(** [try { m } catch (e) { h e }]. *)
Definition try_catch {S A} (m : M S A) (h : JsError -> M S A) : M S A :=
  fun s =>
    match m s with
    | (Normal a, s') => (Normal a, s')
    | (Throw e, s') => h e s'
    end.

Declare Scope js_scope.
Delimit Scope js_scope with js.
Notation "x <- m ;; k" := (bind m (fun x => k))
  (at level 100, m at next level, k at level 200, right associativity) : js_scope.
Notation "m ;; k" := (bind m (fun _ => k))
  (at level 100, k at level 200, right associativity) : js_scope.
Local Open Scope js_scope.

(** Local variables of a function that its [catch] block reads: the body
    runs over the store paired with the locals. *)
Definition lift {L A} (m : M Store A) : M (Store * L) A :=
  fun sl => let '(r, s') := m (fst sl) in (r, (s', snd sl)).

Definition get_locals {L} : M (Store * L) L :=
  fun sl => (Normal (snd sl), sl).

Definition set_locals {L} (f : L -> L) : M (Store * L) unit :=
  fun sl => (Normal tt, (fst sl, f (snd sl))).

Definition with_locals {L A} (l0 : L) (m : M (Store * L) A) : M Store A :=
  fun s => let '(r, sl) := m (s, l0) in (r, fst sl).

(** [for (const x of xs) { body x }]. *)
Fixpoint for_of {S A} (xs : list A) (body : A -> M S unit) : M S unit :=
  match xs with
  | [] => ret tt
  | x :: xs' => body x ;; for_of xs' body
  end.

Definition record (ev : Effect) (s : Store) : Store :=
  {| processedMessages := processedMessages s;
     uploadLimit := uploadLimit s;
     trace := trace s ++ [ev] |}.

(** [processedMessages.set(messageTs, true)]. *)
Definition mark_processed (messageTs : string) (s : Store) : Store :=
  {| processedMessages := <[messageTs := true]> (processedMessages s);
     uploadLimit := uploadLimit s;
     trace := trace s |}.

(** A call to the outside: the answer is read off the trace so far, and
    the call is appended to it. *)
Definition external {A} (ev : Effect) (answer : Trace -> Completion A) : M Store A :=
  fun s => (answer (trace s), record ev s).

Section Handler.

Variable W : World.

(** *** Collaborators *)

Definition Date_now : M Store Z :=
  external DateNow (fun h => Normal (clock W h)).

Definition crypto_randomBytes (n : nat) : M Store (list Byte.byte) :=
  external (RandomBytes n) (fun h => Normal (map (entropy W h) (seq 0 n))).

Definition logger (level : Level) (text : string) (arg : LogArg) : M Store unit :=
  external (Log level text arg) (fun _ => Normal tt).

Definition node_fetch (url authorization : string) : M Store Response :=
  external (Fetch url authorization) (fun h => fetch W h url authorization).

Definition storage_uploadToStorage
    (dir name : string) (buffer : list Byte.byte) (contentType : string) : M Store bool :=
  external (UploadToStorage dir name buffer contentType)
           (fun h => uploadToStorage W h dir name buffer contentType).

Definition client_files_info (file : string) : M Store FilesInfoResponse :=
  external (FilesInfo file) (fun h => files_info W h file).

Definition client_conversations_history (channel latest : string) : M Store HistoryResponse :=
  external (ConversationsHistory channel latest)
           (fun h => conversations_history W h channel latest).

Definition client_reactions_add (name timestamp channel : string) : M Store unit :=
  external (ReactionsAdd name timestamp channel)
           (fun h => reactions_add W h name timestamp channel).

Definition client_reactions_remove (name timestamp channel : string) : M Store unit :=
  external (ReactionsRemove name timestamp channel)
           (fun h => reactions_remove W h name timestamp channel).

Definition client_chat_postMessage (channel thread_ts text : string) : M Store unit :=
  external (ChatPostMessage channel thread_ts text)
           (fun h => chat_postMessage W h channel thread_ts text).

(** *** Constants and module state *)

Definition MAX_FILE_SIZE : Z := 2 * 1024 * 1024 * 1024.
Definition CONCURRENT_UPLOADS : nat := 3.

Definition initialize : M Store unit :=
  fun s => (Normal tt,
            {| processedMessages := processedMessages s;
               uploadLimit := Some CONCURRENT_UPLOADS;
               trace := trace s |}).

(** [uploadLimit(task)]: a call of [undefined] before [initialize];
    otherwise the limiter starts the task at once, no other task of the
    invocation being in flight. *)
Definition call_uploadLimit {A} (task : M Store A) : M Store A :=
  fun s =>
    match uploadLimit s with
    | None => (Throw (TypeError "uploadLimit is not a function"), s)
    | Some _ => task s
    end.

(** *** Basic stuff *)

Definition isMessageTooOld (eventTs : string) : M Store bool :=
  let eventTime := Number.mul (parseFloat eventTs) (Number.of_Z 1000) in
  now <- Date_now ;;
  ret (Number.gt (Number.sub (Number.of_Z now) eventTime)
                 (Number.of_Z (24 * 60 * 60 * 1000))).

Definition isMessageProcessed (messageTs : string) : M Store bool :=
  fun s => (Normal (bool_decide (is_Some (processedMessages s !! messageTs))), s).

Definition markMessageAsProcessing (messageTs : string) : M Store unit :=
  fun s => (Normal tt, mark_processed messageTs s).

(** *** File processing *)

(** A code unit kept by [/[^a-zA-Z0-9.-]/]. *)
Definition allowed (c : ascii) : bool :=
  let n := N_of_ascii c in
  ((97 <=? n) && (n <=? 122) || (65 <=? n) && (n <=? 90)
   || (48 <=? n) && (n <=? 57) || (n =? 46) || (n =? 45))%N.

(** [fileName.replace(/[^a-zA-Z0-9.-]/g, '_')]. *)
Fixpoint replace_disallowed (fileName : string) : string :=
  match fileName with
  | EmptyString => EmptyString
  | String c rest =>
      String (if allowed c then c else "_"%char) (replace_disallowed rest)
  end.

Definition sanitizeFileName (fileName : string) : M Store string :=
  let sanitized := replace_disallowed fileName in
  match sanitized with
  | EmptyString => now <- Date_now ;; ret ("upload_" +:+ dec now)
  | _ => ret sanitized
  end.

Definition generateUniqueFileName (fileName : string) : M Store string :=
  now <- Date_now ;;
  bytes <- crypto_randomBytes 16 ;;
  sanitized <- sanitizeFileName fileName ;;
  ret (dec now +:+ "-" +:+ to_hex bytes +:+ "-" +:+ sanitized).

(** *** Upload functionality *)

Definition push_failed (name : string) : M (Store * BatchResult) unit :=
  set_locals (fun l => {| uploadedFiles := uploadedFiles l;
                          failedFiles := failedFiles l ++ [name] |}).

Definition push_uploaded (u : UploadedFile) : M (Store * BatchResult) unit :=
  set_locals (fun l => {| uploadedFiles := uploadedFiles l ++ [u];
                          failedFiles := failedFiles l |}).

(** [await response.buffer()]. *)
Definition await {S A} (c : Completion A) : M S A := fun s => (c, s).

(** The body of the loop of [processFiles], its [try] and its [catch];
    the locals are the arrays [uploadedFiles] and [failedFiles]. *)
Definition processFile (fileMessage : Message) (file : FileRef)
  : M (Store * BatchResult) unit :=
  try_catch
    (if MAX_FILE_SIZE <? file_size file then
       push_failed (file_name file)
     else
       response <- lift (node_fetch (file_url_private file)
                                    ("Bearer " +:+ SLACK_BOT_TOKEN W)) ;;
       if negb (response_ok response) then throw (Error "Download failed")
       else
         buffer <- await (response_buffer response) ;;
         uniqueFileName <- lift (generateUniqueFileName (file_name file)) ;;
         let userDir := "s/" +:+ msg_user fileMessage in
         success <- lift (call_uploadLimit
                            (storage_uploadToStorage userDir uniqueFileName buffer
                                                     (file_mimetype file))) ;;
         if negb success then throw (Error "Upload failed")
         else
           push_uploaded {| up_name := uniqueFileName;
                            up_url := generateFileUrl W userDir uniqueFileName;
                            up_contentType := file_mimetype file |})
    (fun error =>
       lift (logger LError
               ("Failed: " +:+ file_name file +:+ " - " +:+ message error) NoArg) ;;
       push_failed (file_name file)).

Definition processFiles (fileMessage : Message) : M Store BatchResult :=
  with_locals {| uploadedFiles := []; failedFiles := [] |}
    (let files := default [] (msg_files fileMessage) in
     lift (logger LInfo
             ("Processing " +:+ dec (Z.of_nat (length files)) +:+ " files") NoArg) ;;
     for_of files (processFile fileMessage) ;;
     result <- get_locals ;;
     lift (logger LInfo
             ("Completed: " +:+ dec (Z.of_nat (length (uploadedFiles result)))
              +:+ " ok, " +:+ dec (Z.of_nat (length (failedFiles result)))
              +:+ " failed") NoArg) ;;
     ret result).

(** *** Slack interaction *)

Definition addProcessingReaction (event : SlackEvent) (fileMessage : Message)
  : M Store unit :=
  try_catch
    (client_reactions_add "beachball" (msg_ts fileMessage) (channel_id event))
    (fun error => logger LError "Failed to add reaction:" (StrArg (message error))).

Definition updateReactions (event : SlackEvent) (fileMessage : Message) (success : bool)
  : M Store unit :=
  try_catch
    (client_reactions_remove "beachball" (msg_ts fileMessage) (channel_id event) ;;
     client_reactions_add (if success then "white_check_mark" else "x")
                          (msg_ts fileMessage) (channel_id event))
    (fun error => logger LError "Failed to update reactions:" (StrArg (message error))).

(** [shares?.public?.[channel] || shares?.private?.[channel]]; an array,
    even empty, is truthy. *)
Definition shared_in (visibility : Shares -> option (gmap string (list Share)))
    (file : FileObject) (channel : string) : option (list Share) :=
  shares ← file_shares file;
  by_channel ← visibility shares;
  by_channel !! channel.

Definition channelShare_of (file : FileObject) (channel : string) : option (list Share) :=
  match shared_in shares_public file channel with
  | Some share => Some share
  | None => shared_in shares_private file channel
  end.

Definition findFileMessage (event : SlackEvent) : M Store (option Message) :=
  try_catch
    (fileInfo <- client_files_info (file_id event) ;;
     match info_ok fileInfo, info_file fileInfo with
     | true, Some file =>
         match channelShare_of file (channel_id event) with
         | Some (share :: _) =>
             let messageTs := share_ts share in
             messageInfo <- client_conversations_history (channel_id event) messageTs ;;
             match history_ok messageInfo, history_messages messageInfo with
             | true, first :: _ => ret (Some first)
             | _, _ => throw (Error "Could not find original message")
             end
         | _ => throw (Error "No share info found for this channel")
         end
     | _, _ => throw (Error "Could not get file info")
     end)
    (fun error =>
       logger LError "Error finding file message:" (ErrArg error) ;;
       ret None).

Definition newline : string := String (ascii_of_N 10) EmptyString.

Definition link_line (f : UploadedFile) : string :=
  "• " +:+ up_name f +:+ ": " +:+ up_url f.

Definition sendResultsMessage (channelId : string) (fileMessage : Message)
    (uploaded : list UploadedFile) (failed : list string) : M Store unit :=
  let message := "Hey <@" +:+ msg_user fileMessage +:+ ">, " in
  let message :=
    if (0 <? length uploaded)%nat then
      message +:+ "here "
      +:+ (if (length uploaded =? 1)%nat then "is your link" else "are your links")
      +:+ ":" +:+ newline
      +:+ String.concat newline (map link_line uploaded)
    else message in
  let message :=
    if (0 <? length failed)%nat then
      message +:+ newline +:+ newline +:+ "Failed to process: "
      +:+ String.concat ", " failed
    else message in
  client_chat_postMessage channelId (msg_ts fileMessage) message.

Definition handleError (channelId : string) (fileMessage : option Message)
    (reactionAdded : bool) : M Store unit :=
  match fileMessage, reactionAdded with
  | Some fileMessage, true =>
      try_catch
        (client_reactions_remove "beachball" (msg_ts fileMessage) channelId)
        (fun cleanupError =>
           match data cleanupError with
           | None =>
               throw (TypeError "Cannot read properties of undefined (reading 'error')")
           | Some d =>
               if negb (String.eqb (error d) "no_reaction") then
                 logger LError "Cleanup error:" (ErrArg cleanupError)
               else ret tt
           end) ;;
      try_catch
        (client_reactions_add "x" (msg_ts fileMessage) channelId)
        (fun cleanupError => logger LError "Cleanup error:" (ErrArg cleanupError))
  | _, _ => ret tt
  end.

(** The variables of [handleFileUpload] declared before its [try]. *)
Record Locals := {
  fileMessage : option Message;
  reactionAdded : bool
}.

Definition handleFileUpload (event : SlackEvent) : M Store unit :=
  with_locals {| fileMessage := None; reactionAdded := false |}
    (try_catch
       (tooOld <- lift (isMessageTooOld (event_ts event)) ;;
        if tooOld then ret tt
        else
          found <- lift (findFileMessage event) ;;
          set_locals (fun l => {| fileMessage := found;
                                  reactionAdded := reactionAdded l |}) ;;
          match found with
          | None => ret tt
          | Some fm =>
              processed <- lift (isMessageProcessed (msg_ts fm)) ;;
              if processed then ret tt
              else
                lift (markMessageAsProcessing (msg_ts fm)) ;;
                lift (addProcessingReaction event fm) ;;
                set_locals (fun l => {| fileMessage := fileMessage l;
                                        reactionAdded := true |}) ;;
                result <- lift (processFiles fm) ;;
                lift (sendResultsMessage (channel_id event) fm
                        (uploadedFiles result) (failedFiles result)) ;;
                lift (updateReactions event fm
                        (length (failedFiles result) =? 0)%nat)
          end)
       (fun error =>
          lift (logger LError ("Upload failed: " +:+ message error) NoArg) ;;
          l <- get_locals ;;
          lift (handleError (channel_id event) (fileMessage l) (reactionAdded l)) ;;
          throw error)).

End Handler.

(** ** A concrete world for running the handler *)

Module Demo.

Definition fileA : FileRef :=
  {| file_name := "a b.png"; file_size := 10;
     file_url_private := "https://files/A"; file_mimetype := "image/png" |}.
Definition fileB : FileRef :=
  {| file_name := "B.bin"; file_size := 3 * 1024 * 1024 * 1024;
     file_url_private := "https://files/B"; file_mimetype := "application/octet-stream" |}.
Definition fileC : FileRef :=
  {| file_name := ""; file_size := 20;
     file_url_private := "https://files/C"; file_mimetype := "text/plain" |}.

Definition file_message : Message :=
  {| msg_ts := "1700000000.000100"; msg_user := "U1";
     msg_files := Some [fileA; fileB; fileC] |}.

Definition event : SlackEvent :=
  {| file_id := "F1"; channel_id := "C1"; event_ts := "1700000000.000200" |}.

Definition info : FilesInfoResponse :=
  {| info_ok := true;
     info_file := Some {| file_shares := Some
       {| shares_public := Some {[ "C1" := [ {| share_ts := "1700000000.000100" |} ] ]};
          shares_private := None |} |} |}.

Definition history : HistoryResponse :=
  {| history_ok := true; history_messages := [file_message] |}.

(** A world in which the clock advances by one millisecond per recorded
    effect, downloads and uploads succeed, and the Slack client answers
    as given. *)
Definition make
    (info_answer : Completion FilesInfoResponse)
    (add remove : string -> Completion unit)
    (post : Completion unit) : World :=
  {| clock := fun h => 1700000001000 + Z.of_nat (length h);
     entropy := fun _ i => default Byte.x00 (Byte.of_N (N.of_nat (17 * i)));
     SLACK_BOT_TOKEN := "xoxb";
     generateFileUrl := fun dir name => "https://cdn/" +:+ dir +:+ "/" +:+ name;
     fetch := fun _ _ _ =>
       Normal {| response_ok := true; response_buffer := Normal [Byte.x01] |};
     uploadToStorage := fun _ _ _ _ _ => Normal true;
     files_info := fun _ _ => info_answer;
     conversations_history := fun _ _ _ => Normal history;
     reactions_add := fun _ name _ _ => add name;
     reactions_remove := fun _ name _ _ => remove name;
     chat_postMessage := fun _ _ _ _ => post |}.

(** Every collaborator answers. *)
Definition world : World :=
  make (Normal info) (fun _ => Normal tt) (fun _ => Normal tt) (Normal tt).

(** A platform error of the Slack client: it carries [data]. *)
Definition platform_error (code : string) : JsError :=
  {| message := "An API error occurred: " +:+ code;
     data := Some {| error := code |} |}.

(** A transport error of the Slack client: it carries no [data]. *)
Definition request_error : JsError :=
  {| message := "A request error occurred: ECONNRESET"; data := None |}.

(** The summary message cannot be posted. *)
Definition report_fails : World :=
  make (Normal info) (fun _ => Normal tt) (fun _ => Normal tt)
       (Throw (platform_error "channel_not_found")).

(** The connection to Slack is lost once the files are stored: the
    summary and the removal of the marker both fail in transport. *)
Definition connection_lost : World :=
  make (Normal info) (fun _ => Normal tt) (fun _ => Throw request_error)
       (Throw request_error).

(** The in-progress marker could not be set, so that its removal
    answers [no_reaction]; other reactions can be added. *)
Definition no_beachball : World :=
  make (Normal info)
       (fun name => if String.eqb name "beachball"
                    then Throw (platform_error "invalid_name") else Normal tt)
       (fun _ => Throw (platform_error "no_reaction"))
       (Normal tt).

(** The file is unknown to Slack. *)
Definition file_unknown : World :=
  make (Normal {| info_ok := false; info_file := None |})
       (fun _ => Normal tt) (fun _ => Normal tt) (Normal tt).

(** The store once [initialize] has run. *)
Definition start : Store := snd (initialize loaded).

Definition archived_event : SlackEvent :=
  {| file_id := "F1"; channel_id := "C1"; event_ts := "1600000000.000200" |}.

Definition undated_event : SlackEvent :=
  {| file_id := "F1"; channel_id := "C1"; event_ts := "yesterday" |}.

End Demo.


(** ** Observations on traces *)

Definition is_transfer (ev : Effect) : bool :=
  match ev with
  | Fetch _ _ | UploadToStorage _ _ _ _ => true
  | _ => false
  end.

Definition is_fetch (ev : Effect) : bool :=
  match ev with Fetch _ _ => true | _ => false end.

Definition is_report (ev : Effect) : bool :=
  match ev with ChatPostMessage _ _ _ => true | _ => false end.

Definition is_marker (ev : Effect) : bool :=
  match ev with
  | ReactionsAdd _ _ _ | ReactionsRemove _ _ _ => true
  | _ => false
  end.

Definition is_lookup (ev : Effect) : bool :=
  match ev with
  | FilesInfo _ | ConversationsHistory _ _ => true
  | _ => false
  end.

Definition is_log (ev : Effect) : bool :=
  match ev with Log _ _ _ => true | _ => false end.

(** Neither a transfer, nor a report, nor a marker change. *)
Definition idle (ev : Effect) : Prop :=
  is_transfer ev = false /\ is_report ev = false /\ is_marker ev = false.

(** The URLs downloaded, in order. *)
Definition fetched (t : Trace) : list string :=
  omap (fun ev => match ev with Fetch url _ => Some url | _ => None end) t.

(** The reactions added, in order. *)
Definition added (t : Trace) : list string :=
  omap (fun ev => match ev with ReactionsAdd name _ _ => Some name | _ => None end) t.

(** The reactions removed, in order. *)
Definition removed (t : Trace) : list string :=
  omap (fun ev => match ev with ReactionsRemove name _ _ => Some name | _ => None end) t.

(** ** Outcomes of the batch *)

Inductive Outcome :=
| Succeeded (u : UploadedFile)
| Failed (name : string).

Definition successes (os : list Outcome) : list UploadedFile :=
  omap (fun o => match o with Succeeded u => Some u | Failed _ => None end) os.

Definition failures (os : list Outcome) : list string :=
  omap (fun o => match o with Failed name => Some name | Succeeded _ => None end) os.

(** The arrays of [processFiles] after the outcomes [os] were pushed. *)
Definition collect (l : BatchResult) (os : list Outcome) : BatchResult :=
  {| uploadedFiles := uploadedFiles l ++ successes os;
     failedFiles := failedFiles l ++ failures os |}.

Definition oversized (file : FileRef) : bool := MAX_FILE_SIZE <? file_size file.

(** [o] is an outcome of the transfer of [file]: a failure carries the
    original name; a success carries a generated name, the public URL
    of that name in the namespace of the owner, and the declared type. *)
Definition outcome_of (W : World) (fm : Message) (file : FileRef) (o : Outcome) : Prop :=
  match o with
  | Failed name => name = file_name file
  | Succeeded u =>
      oversized file = false
      /\ up_contentType u = file_mimetype file
      /\ up_url u = generateFileUrl W ("s/" +:+ msg_user fm) (up_name u)
      /\ exists s s', generateUniqueFileName W (file_name file) s = (Normal (up_name u), s')
  end.

(** ** Staleness and names *)

(** The staleness test on the value of the clock. *)
Definition too_old (now : Z) (eventTs : string) : bool :=
  Number.gt (Number.sub (Number.of_Z now)
                        (Number.mul (parseFloat eventTs) (Number.of_Z 1000)))
            (Number.of_Z (24 * 60 * 60 * 1000)).

(** The characters of the class [[A-Za-z0-9.-]]. *)
Definition name_class : list ascii :=
  list_ascii_of_string "abcdefghijklmnopqrstuvwxyzABCDEFGHIJKLMNOPQRSTUVWXYZ0123456789.-".

(** ** The handler after admission *)

(** How a run that passed the gate with message [fm] in store [s2] goes
    on to complete with [r] in store [s']: the marker, the batch and the
    report; then the terminal marker, or, when the report threw, the
    compensating path and the exception. *)
Definition after_admission (W : World) (event : SlackEvent) (fm : Message)
    (s2 : Store) (r : Completion unit) (s' : Store) : Prop :=
  exists s3 result s4 reported s5,
    addProcessingReaction W event fm (mark_processed (msg_ts fm) s2) = (Normal tt, s3)
    /\ processFiles W fm s3 = (Normal result, s4)
    /\ sendResultsMessage W (channel_id event) fm
         (uploadedFiles result) (failedFiles result) s4 = (reported, s5)
    /\ match reported with
       | Normal _ =>
           r = Normal tt
           /\ updateReactions W event fm (length (failedFiles result) =? 0)%nat s5
              = (Normal tt, s')
       | Throw original =>
           exists cleanup,
             handleError W (channel_id event) (Some fm) true
               (record (Log LError ("Upload failed: " +:+ message original) NoArg) s5)
             = (cleanup, s')
             /\ r = match cleanup with
                    | Normal _ => Throw original
                    | Throw cleanupFault => Throw cleanupFault
                    end
       end.

(** ** A small logic of runs *)

Class Stateful (S : Type) := store_of : S -> Store.
#[export] Instance stateful_store : Stateful Store := fun s => s.
#[export] Instance stateful_locals {L} : Stateful (Store * L) := fst.

(** [emits P m]: a run of [m] only appends effects satisfying [P], and
    leaves the module state alone. *)
Definition emits {S A} `{Stateful S} (P : Effect -> Prop) (m : M S A) : Prop :=
  forall s r s', m s = (r, s') ->
    exists t, trace (store_of s') = trace (store_of s) ++ t
              /\ Forall P t
              /\ processedMessages (store_of s') = processedMessages (store_of s)
              /\ uploadLimit (store_of s') = uploadLimit (store_of s).

(** [returns m]: no exception escapes [m]. *)
Definition returns {S A} (m : M S A) : Prop :=
  forall s, exists a, fst (m s) = Normal a.

(** ** Further notions used in the statements *)

(** *** Stored names *)

(** A character that may occur in a sanitized name. *)
Definition safe_char (c : ascii) : Prop := c ∈ name_class \/ c = "_"%char.

Definition safe_name (name : string) : Prop :=
  Forall safe_char (list_ascii_of_string name).

(** *** The transfer of one file, case by case *)

(** The uploads, in order: namespace, stored name, bytes and type. *)
Definition uploads (t : Trace) : list (string * string * list Byte.byte * string) :=
  omap (fun ev => match ev with
                  | UploadToStorage dir name buffer contentType =>
                      Some (dir, name, buffer, contentType)
                  | _ => None
                  end) t.

(** The store after the [catch] block of the loop logged [error]. *)
Definition logged_failure (file : FileRef) (error : JsError) (s : Store) : Store :=
  record (Log LError ("Failed: " +:+ file_name file +:+ " - " +:+ message error) NoArg) s.

(** The upload of the downloaded bytes under the generated name. *)
Inductive upload_step (W : World) (fm : Message) (file : FileRef)
    (buffer : list Byte.byte) (uniqueFileName : string) (s2 : Store)
  : Outcome -> Store -> Prop :=
| store_unscheduled :
    uploadLimit s2 = None ->
    upload_step W fm file buffer uniqueFileName s2 (Failed (file_name file))
      (logged_failure file (TypeError "uploadLimit is not a function") s2)
| store_throws capacity error :
    uploadLimit s2 = Some capacity ->
    uploadToStorage W (trace s2) ("s/" +:+ msg_user fm) uniqueFileName buffer
      (file_mimetype file) = Throw error ->
    upload_step W fm file buffer uniqueFileName s2 (Failed (file_name file))
      (logged_failure file error
         (record (UploadToStorage ("s/" +:+ msg_user fm) uniqueFileName buffer
                    (file_mimetype file)) s2))
| store_refused capacity :
    uploadLimit s2 = Some capacity ->
    uploadToStorage W (trace s2) ("s/" +:+ msg_user fm) uniqueFileName buffer
      (file_mimetype file) = Normal false ->
    upload_step W fm file buffer uniqueFileName s2 (Failed (file_name file))
      (logged_failure file (Error "Upload failed")
         (record (UploadToStorage ("s/" +:+ msg_user fm) uniqueFileName buffer
                    (file_mimetype file)) s2))
| store_done capacity :
    uploadLimit s2 = Some capacity ->
    uploadToStorage W (trace s2) ("s/" +:+ msg_user fm) uniqueFileName buffer
      (file_mimetype file) = Normal true ->
    upload_step W fm file buffer uniqueFileName s2
      (Succeeded {| up_name := uniqueFileName;
                    up_url := generateFileUrl W ("s/" +:+ msg_user fm) uniqueFileName;
                    up_contentType := file_mimetype file |})
      (record (UploadToStorage ("s/" +:+ msg_user fm) uniqueFileName buffer
                 (file_mimetype file)) s2).

(** [transfer W fm file s o s']: the body of the loop of [processFiles],
    run on [file] in store [s], pushes the outcome [o] and leaves [s']. *)
Inductive transfer (W : World) (fm : Message) (file : FileRef) (s : Store)
  : Outcome -> Store -> Prop :=
| transfer_oversized :
    MAX_FILE_SIZE < file_size file ->
    transfer W fm file s (Failed (file_name file)) s
| transfer_unreachable error :
    file_size file <= MAX_FILE_SIZE ->
    fetch W (trace s) (file_url_private file) ("Bearer " +:+ SLACK_BOT_TOKEN W)
      = Throw error ->
    transfer W fm file s (Failed (file_name file))
      (logged_failure file error
         (record (Fetch (file_url_private file) ("Bearer " +:+ SLACK_BOT_TOKEN W)) s))
| transfer_not_ok response :
    file_size file <= MAX_FILE_SIZE ->
    fetch W (trace s) (file_url_private file) ("Bearer " +:+ SLACK_BOT_TOKEN W)
      = Normal response ->
    response_ok response = false ->
    transfer W fm file s (Failed (file_name file))
      (logged_failure file (Error "Download failed")
         (record (Fetch (file_url_private file) ("Bearer " +:+ SLACK_BOT_TOKEN W)) s))
| transfer_truncated response error :
    file_size file <= MAX_FILE_SIZE ->
    fetch W (trace s) (file_url_private file) ("Bearer " +:+ SLACK_BOT_TOKEN W)
      = Normal response ->
    response_ok response = true ->
    response_buffer response = Throw error ->
    transfer W fm file s (Failed (file_name file))
      (logged_failure file error
         (record (Fetch (file_url_private file) ("Bearer " +:+ SLACK_BOT_TOKEN W)) s))
| transfer_downloaded response buffer uniqueFileName s2 o s' :
    file_size file <= MAX_FILE_SIZE ->
    fetch W (trace s) (file_url_private file) ("Bearer " +:+ SLACK_BOT_TOKEN W)
      = Normal response ->
    response_ok response = true ->
    response_buffer response = Normal buffer ->
    generateUniqueFileName W (file_name file)
      (record (Fetch (file_url_private file) ("Bearer " +:+ SLACK_BOT_TOKEN W)) s)
      = (Normal uniqueFileName, s2) ->
    upload_step W fm file buffer uniqueFileName s2 o s' ->
    transfer W fm file s o s'.

(** The transfers of a batch, one after the other. *)
Inductive batch (W : World) (fm : Message)
  : list FileRef -> Store -> list Outcome -> Store -> Prop :=
| batch_nil s : batch W fm [] s [] s
| batch_cons file files s o s1 os s2 :
    transfer W fm file s o s1 ->
    batch W fm files s1 os s2 ->
    batch W fm (file :: files) s (o :: os) s2.

Definition is_upload (ev : Effect) : bool :=
  match ev with UploadToStorage _ _ _ _ => true | _ => false end.

(** What a file that was stored leaves behind. *)
Definition stored_upload (fm : Message) (file : FileRef) (buffer : list Byte.byte)
    (u : UploadedFile) : string * string * list Byte.byte * string :=
  ("s/" +:+ msg_user fm, up_name u, buffer, file_mimetype file).



(** *** The report *)

(** The reports sent, in order: channel, thread and text. *)
Definition reports (t : Trace) : list (string * string * string) :=
  omap (fun ev => match ev with
                  | ChatPostMessage channel thread text => Some (channel, thread, text)
                  | _ => None
                  end) t.

(** The text of the summary, as [sendResultsMessage] composes it. *)
Definition summary (fm : Message) (result : BatchResult) : string :=
  let greeting := "Hey <@" +:+ msg_user fm +:+ ">, " in
  let links :=
    match uploadedFiles result with
    | [] => ""
    | [only] => "here is your link:" +:+ newline +:+ link_line only
    | several =>
        "here are your links:" +:+ newline
        +:+ String.concat newline (map link_line several)
    end in
  let failed :=
    match failedFiles result with
    | [] => ""
    | names => newline +:+ newline +:+ "Failed to process: " +:+ String.concat ", " names
    end in
  greeting +:+ links +:+ failed.

(** *** Further demonstration worlds *)

(** A file shared privately in the channel, with an empty list of public
    shares there. *)
Definition shadowed_file : FileObject :=
  {| file_shares := Some
       {| shares_public := Some {[ "C1" := [] ]};
          shares_private := Some {[ "C1" := [ {| share_ts := "1700000000.000100" |} ] ]} |} |}.

Definition shadowed_world : World :=
  Demo.make (Normal {| info_ok := true; info_file := Some shadowed_file |})
            (fun _ => Normal tt) (fun _ => Normal tt) (Normal tt).

(** A message that carries no [files] member. *)
Definition bare_message : Message :=
  {| msg_ts := "1700000000.000100"; msg_user := "U1"; msg_files := None |}.

Definition bare_world : World :=
  {| clock := clock Demo.world;
     entropy := entropy Demo.world;
     SLACK_BOT_TOKEN := SLACK_BOT_TOKEN Demo.world;
     generateFileUrl := generateFileUrl Demo.world;
     fetch := fetch Demo.world;
     uploadToStorage := uploadToStorage Demo.world;
     files_info := files_info Demo.world;
     conversations_history := fun _ _ _ =>
       Normal {| history_ok := true; history_messages := [bare_message] |};
     reactions_add := reactions_add Demo.world;
     reactions_remove := reactions_remove Demo.world;
     chat_postMessage := chat_postMessage Demo.world |}.

(** ** The upload endpoint ([src/api/upload.js]) *)

(** [s.split(sep)] for a one-character separator: the segments between
    the separators, at least one. *)
Fixpoint split (sep : ascii) (s : string) : list string :=
  match s with
  | EmptyString => [""]
  | String c rest =>
      if Ascii.eqb c sep then "" :: split sep rest
      else match split sep rest with
           | segment :: segments => String c segment :: segments
           | [] => [String c ""]
           end
  end.

(** [array.pop()] on an array that is not empty, as [split] returns. *)
Definition pop (segments : list string) : string := List.last segments "".

Module Api.

(** An error object that a collaborator throws; [statusCode], [code] and
    [details] are the optional properties the endpoint reads. *)
Record RawError := {
  message : string;
  statusCode : option Z;
  code : option string;
  details : option string
}.

Definition plain_error (msg : string) : RawError :=
  {| message := msg; statusCode := None; code := None; details := None |}.

(** The [error] member of an error response; [details] is absent, null
    or a value. *)
Record ErrorBody := {
  error_message : option string;
  error_code : string;
  error_details : option (option string)
}.

(** What is thrown: an error object, or the plain object that
    [uploadEndpoint] throws, [{statusCode, error, success: false}]. *)
Inductive Thrown :=
| Raw (e : RawError)
| Formatted (status : Z) (error : ErrorBody).

Inductive Result (A : Type) : Type :=
| Ok (a : A)
| Rejected (t : Thrown).
Arguments Ok {A} a.
Arguments Rejected {A} t.

(** The response of [fetch]. *)
Record Response := {
  ok : bool;
  status : Z;
  statusText : string;
  content_type : option string;
  buffer : Result (list Byte.byte)
}.

(** What [uploadToStorage] resolves to; [success] may be missing, and
    [error] is kept as the text a template literal renders. *)
Record UploadResult := {
  success : option bool;
  error : string
}.

Inductive Effect :=
| LogDebug (text : string)
| LogError (text : string)
| DateNow
| Fetch (url : string) (authorization : option string)
| Upload (dir name : string) (bytes : list Byte.byte) (contentType : option string)
| ReadText.

Abbreviation Trace := (list Effect).

(** The collaborators of the module; [sha1_hex] is
    [crypto.createHash('sha1').update(buffer).digest('hex')] and
    [generateUrl] comes from [./utils]. *)
Record Env := {
  clock : Trace -> Z;
  sha1_hex : list Byte.byte -> string;
  generateUrl : string -> string -> string;
  fetch : Trace -> string -> option string -> Result Response;
  uploadToStorage :
    Trace -> string -> string -> list Byte.byte -> option string -> Result UploadResult
}.

Definition M (A : Type) : Type := Trace -> Result A * Trace.

Definition ret {A} (a : A) : M A := fun h => (Ok a, h).

Definition bind {A B} (m : M A) (k : A -> M B) : M B :=
  fun h =>
    match m h with
    | (Ok a, h') => k a h'
    | (Rejected t, h') => (Rejected t, h')
    end.

Definition throw {A} (t : Thrown) : M A := fun h => (Rejected t, h).

Definition try_catch {A} (m : M A) (handler : Thrown -> M A) : M A :=
  fun h =>
    match m h with
    | (Ok a, h') => (Ok a, h')
    | (Rejected t, h') => handler t h'
    end.

Definition call {A} (ev : Effect) (answer : Trace -> Result A) : M A :=
  fun h => (answer h, h ++ [ev]).

Definition await {A} (r : Result A) : M A := fun h => (r, h).

Declare Scope api_scope.
Delimit Scope api_scope with api.
Notation "x <- m ;; k" := (bind m (fun x => k))
  (at level 100, m at next level, k at level 200, right associativity) : api_scope.
Notation "m ;; k" := (bind m (fun _ => k))
  (at level 100, k at level 200, right associativity) : api_scope.
Local Open Scope api_scope.

(** The properties of a thrown value that the [catch] blocks read. *)
Definition message_of (t : Thrown) : option string :=
  match t with Raw e => Some (message e) | Formatted _ _ => None end.

Definition statusCode_of (t : Thrown) : option Z :=
  match t with Raw e => statusCode e | Formatted status _ => Some status end.

Definition code_of (t : Thrown) : option string :=
  match t with Raw e => code e | Formatted _ _ => None end.

Definition details_of (t : Thrown) : option string :=
  match t with Raw e => details e | Formatted _ _ => None end.

Definition error_of (t : Thrown) : option ErrorBody :=
  match t with Raw _ => None | Formatted _ error => Some error end.

(** [x || fallback] for a number and for a string. *)
Definition number_or (x : option Z) (fallback : Z) : Z :=
  match x with
  | Some n => if n =? 0 then fallback else n
  | None => fallback
  end.

Definition string_or (x : option string) (fallback : string) : string :=
  match x with
  | Some EmptyString | None => fallback
  | Some s => s
  end.

(** What [uploadEndpoint] resolves to. *)
Record Uploaded := {
  url : string;
  sha : string;
  size : nat;
  type : option string
}.

Record Request := {
  body : option string;
  text : Result string;
  authorization : option string
}.

Inductive ResponseBody :=
| Success (result : Uploaded)
| Failure (error : ErrorBody).

Record HttpResponse := {
  http_status : Z;
  http_body : ResponseBody
}.

Section Endpoint.

Variable E : Env.

Definition Date_now : M Z := call DateNow (fun h => Ok (clock E h)).

Definition logger_debug (text : string) : M unit := call (LogDebug text) (fun _ => Ok tt).
Definition logger_error (text : string) : M unit := call (LogError text) (fun _ => Ok tt).

(** Sanitize file name for storage. *)
Definition sanitizeFileName (fileName : string) : M string :=
  let sanitizedFileName := replace_disallowed fileName in
  match sanitizedFileName with
  | EmptyString => now <- Date_now ;; ret ("upload_" +:+ dec now)
  | _ => ret sanitizedFileName
  end.

(** [authorization ? {'Authorization': authorization} : {}]. *)
Definition header_of (authorization : option string) : option string :=
  match authorization with
  | Some EmptyString | None => None
  | Some value => Some value
  end.

(** Handle remote file upload to S3 storage. *)
Definition uploadEndpoint (url : string) (authorization : option string) : M Uploaded :=
  try_catch
    (logger_debug "Starting download" ;;
     response <- call (Fetch url (header_of authorization))
                      (fun h => fetch E h url (header_of authorization)) ;;
     if negb (ok response) then
       throw (Raw {| message := "Download failed: " +:+ statusText response;
                     statusCode := Some (status response);
                     code := None; details := None |})
     else
       buffer <- await (buffer response) ;;
       let sha := sha1_hex E buffer in
       let originalName := pop (split "/" url) in
       sanitizedFileName <- sanitizeFileName originalName ;;
       let fileName := sha +:+ "_" +:+ sanitizedFileName in
       logger_debug ("Uploading: " +:+ fileName) ;;
       uploadResult <- call (Upload "s/v3" fileName buffer (content_type response))
                            (fun h => uploadToStorage E h "s/v3" fileName buffer
                                        (content_type response)) ;;
       match success uploadResult with
       | Some false =>
           throw (Raw (plain_error ("Storage upload failed: " +:+ error uploadResult)))
       | _ =>
           ret {| url := generateUrl E "s/v3" fileName;
                  sha := sha;
                  size := length buffer;
                  type := content_type response |}
       end)
    (fun error =>
       logger_error "Upload process failed" ;;
       let statusCode := number_or (statusCode_of error) 500 in
       throw (Formatted statusCode
                {| error_message := message_of error;
                   error_code := string_or (code_of error) "INTERNAL_ERROR";
                   error_details :=
                     Some (match details_of error with
                           | Some EmptyString | None => None
                           | Some d => Some d
                           end) |})).

(** Express request handler for file uploads. *)
Definition handleUpload (req : Request) : M HttpResponse :=
  try_catch
    (url <- match body req with
            | Some EmptyString | None => call ReadText (fun _ => text req)
            | Some b => ret b
            end ;;
     result <- uploadEndpoint url (authorization req) ;;
     ret {| http_status := 200; http_body := Success result |})
    (fun error =>
       ret {| http_status := number_or (statusCode_of error) 500;
              http_body :=
                Failure (match error_of error with
                         | Some e => e
                         | None => {| error_message := Some "Internal server error";
                                      error_code := "INTERNAL_ERROR";
                                      error_details := None |}
                         end) |}).

End Endpoint.

End Api.

(** *** Observations on a trace of the endpoint *)

(** The downloads requested, each with the [Authorization] header sent. *)
Definition requests (h : Api.Trace) : list (string * option string) :=
  omap (fun ev => match ev with
                  | Api.Fetch url authorization => Some (url, authorization)
                  | _ => None
                  end) h.

(** The objects handed to the storage: directory, name, bytes and
    content type. *)
Definition stored (h : Api.Trace)
  : list (string * string * list Byte.byte * option string) :=
  omap (fun ev => match ev with
                  | Api.Upload dir name bytes contentType =>
                      Some (dir, name, bytes, contentType)
                  | _ => None
                  end) h.

(** How often the text of the request was read. *)
Definition reads (h : Api.Trace) : nat :=
  length (omap (fun ev => match ev with
                          | Api.ReadText => Some tt
                          | _ => None
                          end) h).

(** No ["/"] occurs in a string. *)
Definition slashless (s : string) : Prop :=
  Forall (fun c => c <> "/"%char) (list_ascii_of_string s).

(** *** The runs of the endpoint *)

(** The object that the [catch] block of [uploadEndpoint] throws for a
    caught value. *)
Definition formatted (t : Api.Thrown) : Api.Thrown :=
  Api.Formatted (Api.number_or (Api.statusCode_of t) 500)
    {| Api.error_message := Api.message_of t;
       Api.error_code := Api.string_or (Api.code_of t) "INTERNAL_ERROR";
       Api.error_details :=
         Some (match Api.details_of t with
               | Some EmptyString | None => None
               | Some d => Some d
               end) |}.

(** The error raised for a download that did not succeed. *)
Definition download_failed (r : Api.Response) : Api.Thrown :=
  Api.Raw {| Api.message := "Download failed: " +:+ Api.statusText r;
             Api.statusCode := Some (Api.status r);
             Api.code := None; Api.details := None |}.

(** The error raised when the storage reports [success: false]. *)
Definition storage_failed (u : Api.UploadResult) : Api.Thrown :=
  Api.Raw (Api.plain_error ("Storage upload failed: " +:+ Api.error u)).

(** The answer of [handleUpload] to a thrown value. *)
Definition answer_to (t : Api.Thrown) : Api.HttpResponse :=
  {| Api.http_status := Api.number_or (Api.statusCode_of t) 500;
     Api.http_body :=
       Api.Failure (match Api.error_of t with
                    | Some e => e
                    | None => {| Api.error_message := Some "Internal server error";
                                 Api.error_code := "INTERNAL_ERROR";
                                 Api.error_details := None |}
                    end) |}.

(** The suffix of the stored name and the clock reading it may cost. *)
Definition suffix_of (E : Api.Env) (url : string) (h : Api.Trace) : string :=
  match replace_disallowed (pop (split "/" url)) with
  | EmptyString => "upload_" +:+ dec (Api.clock E h)
  | sanitized => sanitized
  end.

Definition stamp_of (url : string) : Api.Trace :=
  match replace_disallowed (pop (split "/" url)) with
  | EmptyString => [Api.DateNow]
  | _ => []
  end.

(** The URL that [handleUpload] passes on, if it gets one. *)
Definition url_of (req : Api.Request) : Api.Result string :=
  match Api.body req with
  | Some EmptyString | None => Api.text req
  | Some b => Api.Ok b
  end.

Definition asked (req : Api.Request) : Api.Trace :=
  match Api.body req with
  | Some EmptyString | None => [Api.ReadText]
  | Some _ => []
  end.

(** A demonstration environment: the origin serves an empty file for any
    URL but [https://origin.example/missing], which it answers with 404;
    the storage accepts everything without telling so. *)
Module ApiDemo.

Definition empty_sha : string := "da39a3ee5e6b4b0d3255bfef95601890afd80709".

Definition served : Api.Response :=
  {| Api.ok := true; Api.status := 200; Api.statusText := "OK";
     Api.content_type := Some "image/png"; Api.buffer := Api.Ok [] |}.

Definition not_found : Api.Response :=
  {| Api.ok := false; Api.status := 404; Api.statusText := "Not Found";
     Api.content_type := None; Api.buffer := Api.Ok [] |}.

Definition env (answer : Api.UploadResult) : Api.Env :=
  {| Api.clock := fun _ => 1700000000000;
     Api.sha1_hex := fun _ => empty_sha;
     Api.generateUrl := fun dir name => "https://cdn.example/" +:+ dir +:+ "/" +:+ name;
     Api.fetch := fun _ url _ =>
       if String.eqb url "https://origin.example/missing" then Api.Ok not_found
       else Api.Ok served;
     Api.uploadToStorage := fun _ _ _ _ _ => Api.Ok answer |}.

Definition silent : Api.UploadResult := {| Api.success := None; Api.error := "undefined" |}.

Definition refusing : Api.UploadResult :=
  {| Api.success := Some false; Api.error := "bucket is read-only" |}.

Definition request (url : string) : Api.Request :=
  {| Api.body := Some url;
     Api.text := Api.Rejected (Api.Raw (Api.plain_error "body used already"));
     Api.authorization := None |}.

End ApiDemo.

Section RunLogic.

Context {S : Type} `{Stateful S}.

Lemma emits_ret {A} P (a : A) : emits P (ret a : M S A).
Proof.
  intros s r s' [= <- <-]. exists []. rewrite app_nil_r. auto.
Qed.

Lemma emits_throw {A} P e : emits P (throw e : M S A).
Proof.
  intros s r s' [= <- <-]. exists []. rewrite app_nil_r. auto.
Qed.

Lemma emits_await {A} P (c : Completion A) : emits P (await c : M S A).
Proof.
  intros s r s' [= <- <-]. exists []. rewrite app_nil_r. auto.
Qed.

Lemma emits_bind {A B} P (m : M S A) (k : A -> M S B) :
  emits P m -> (forall a, emits P (k a)) -> emits P (bind m k).
Proof.
  intros Hm Hk s r s'. unfold bind.
  destruct (m s) as [[a|e] s1] eqn:E; intros E'.
  - destruct (Hm _ _ _ E) as (t1 & T1 & F1 & P1 & U1).
    destruct (Hk a _ _ _ E') as (t2 & T2 & F2 & P2 & U2).
    exists (t1 ++ t2). rewrite T2, T1, app_assoc, Forall_app.
    split_and!; auto; congruence.
  - injection E' as <- <-. eauto.
Qed.

Lemma emits_try_catch {A} P (m : M S A) (h : JsError -> M S A) :
  emits P m -> (forall e, emits P (h e)) -> emits P (try_catch m h).
Proof.
  intros Hm Hh s r s'. unfold try_catch.
  destruct (m s) as [[a|e] s1] eqn:E; intros E'.
  - injection E' as <- <-. eauto.
  - destruct (Hm _ _ _ E) as (t1 & T1 & F1 & P1 & U1).
    destruct (Hh e _ _ _ E') as (t2 & T2 & F2 & P2 & U2).
    exists (t1 ++ t2). rewrite T2, T1, app_assoc, Forall_app.
    split_and!; auto; congruence.
Qed.

Lemma emits_for_of {A} P (xs : list A) (body : A -> M S unit) :
  (forall x, emits P (body x)) -> emits P (for_of xs body).
Proof.
  intros Hb. induction xs as [|x xs IH]; simpl.
  - apply emits_ret.
  - apply emits_bind; auto.
Qed.

Lemma emits_weaken {A} (P Q : Effect -> Prop) (m : M S A) :
  (forall ev, P ev -> Q ev) -> emits P m -> emits Q m.
Proof.
  intros PQ Hm s r s' E. destruct (Hm _ _ _ E) as (t & ? & F & ?).
  exists t. split_and!; try tauto. eapply Forall_impl; eauto.
Qed.

Lemma returns_ret {A} (a : A) : returns (ret a : M S A).
Proof. intros s. by exists a. Qed.

Lemma returns_bind {A B} (m : M S A) (k : A -> M S B) :
  returns m -> (forall a, returns (k a)) -> returns (bind m k).
Proof.
  intros Hm Hk s. unfold bind. destruct (Hm s) as [a Ha].
  destruct (m s) as [r s1]. simpl in Ha. subst r. apply Hk.
Qed.

Lemma returns_try_catch {A} (m : M S A) (h : JsError -> M S A) :
  (forall e, returns (h e)) -> returns (try_catch m h).
Proof.
  intros Hh s. unfold try_catch. destruct (m s) as [[a|e] s1]; simpl; eauto.
  apply Hh.
Qed.

Lemma returns_for_of {A} (xs : list A) (body : A -> M S unit) :
  (forall x, returns (body x)) -> returns (for_of xs body).
Proof.
  intros Hb. induction xs as [|x xs IH]; simpl.
  - apply returns_ret.
  - apply returns_bind; auto.
Qed.

End RunLogic.

Lemma emits_external {A} (P : Effect -> Prop) ev (answer : Trace -> Completion A) :
  P ev -> emits P (external ev answer).
Proof.
  intros Pev s r s' [= <- <-]. exists [ev]. simpl. auto.
Qed.

Lemma emits_lift {L A} P (m : M Store A) :
  emits P m -> emits P (lift m : M (Store * L) A).
Proof.
  intros Hm [s l] r [s' l']. unfold lift. simpl.
  destruct (m s) as [r1 s1] eqn:E. intros [= <- <- <-].
  exact (Hm _ _ _ E).
Qed.

Lemma emits_get_locals {L} P : emits P (get_locals : M (Store * L) L).
Proof.
  intros s r s' [= <- <-]. exists []. rewrite app_nil_r. auto.
Qed.

Lemma emits_set_locals {L} P (f : L -> L) : emits P (set_locals f : M (Store * L) unit).
Proof.
  intros [s l] r s' [= <- <-]. exists []. simpl. rewrite app_nil_r. auto.
Qed.

Lemma emits_with_locals {L A} P (l0 : L) (m : M (Store * L) A) :
  emits P m -> emits P (with_locals l0 m).
Proof.
  intros Hm s r s'. unfold with_locals.
  destruct (m (s, l0)) as [r1 sl] eqn:E. intros [= <- <-].
  exact (Hm _ _ _ E).
Qed.

Lemma emits_call_uploadLimit {A} P (task : M Store A) :
  emits P task -> emits P (call_uploadLimit task).
Proof.
  intros Ht s r s'. unfold call_uploadLimit.
  destruct (uploadLimit s).
  - apply Ht.
  - intros [= <- <-]. exists []. rewrite app_nil_r. auto.
Qed.

Lemma returns_lift {L A} (m : M Store A) :
  returns m -> returns (lift m : M (Store * L) A).
Proof.
  intros Hm [s l]. unfold lift. simpl. destruct (Hm s) as [a Ha].
  destruct (m s) as [r s1]. simpl in *. eauto.
Qed.

Lemma returns_with_locals {L A} (l0 : L) (m : M (Store * L) A) :
  returns m -> returns (with_locals l0 m).
Proof.
  intros Hm s. unfold with_locals. destruct (Hm (s, l0)) as [a Ha].
  destruct (m (s, l0)) as [r sl]. simpl in *. eauto.
Qed.

Lemma returns_external {A} ev (answer : Trace -> A) :
  returns (external ev (fun h => Normal (answer h))).
Proof. intros s. simpl. eauto. Qed.

Ltac emits_step :=
  first
    [ apply emits_ret | apply emits_throw | apply emits_await
    | apply emits_get_locals | apply emits_set_locals
    | apply emits_bind; [| intros ?]
    | apply emits_try_catch; [| intros ?]
    | apply emits_lift | apply emits_with_locals | apply emits_call_uploadLimit
    | apply emits_for_of; intros ?
    | apply emits_external; by (cbv; auto)
    | match goal with
      | |- emits _ (match ?x with _ => _ end) => destruct x
      end ].

Ltac returns_step :=
  first
    [ apply returns_ret | apply returns_external
    | apply returns_try_catch; intros ?
    | apply returns_bind; [| intros ?]
    | apply returns_lift | apply returns_with_locals
    | apply returns_for_of; intros ?
    | match goal with
      | |- returns (match ?x with _ => _ end) => destruct x
      end ].

Section HandlerFacts.

Variable W : World.

(** What each function of the module may do to the outside. *)

Lemma isMessageTooOld_emits eventTs :
  emits (fun ev => ev = DateNow) (isMessageTooOld W eventTs).
Proof. unfold isMessageTooOld, Date_now. repeat emits_step. Qed.

Lemma findFileMessage_emits event :
  emits (fun ev => is_lookup ev = true \/ is_log ev = true) (findFileMessage W event).
Proof.
  unfold findFileMessage, client_files_info, client_conversations_history, logger.
  repeat emits_step.
Qed.

Lemma findFileMessage_returns event : returns (findFileMessage W event).
Proof. unfold findFileMessage, logger. repeat returns_step. Qed.

Lemma addProcessingReaction_emits event fm :
  emits (fun ev => ev = ReactionsAdd "beachball" (msg_ts fm) (channel_id event)
                   \/ is_log ev = true)
        (addProcessingReaction W event fm).
Proof.
  unfold addProcessingReaction, client_reactions_add, logger. repeat emits_step.
Qed.

Lemma addProcessingReaction_returns event fm :
  returns (addProcessingReaction W event fm).
Proof. unfold addProcessingReaction, logger. repeat returns_step. Qed.

Lemma updateReactions_emits event fm success :
  emits (fun ev => is_marker ev = true \/ is_log ev = true)
        (updateReactions W event fm success).
Proof.
  unfold updateReactions, client_reactions_add, client_reactions_remove, logger.
  repeat emits_step.
Qed.

Lemma updateReactions_returns event fm success :
  returns (updateReactions W event fm success).
Proof. unfold updateReactions, logger. repeat returns_step. Qed.

Lemma handleError_emits channelId fm reactionAdded :
  emits (fun ev => is_marker ev = true \/ is_log ev = true)
        (handleError W channelId fm reactionAdded).
Proof.
  unfold handleError, client_reactions_add, client_reactions_remove, logger.
  repeat emits_step.
Qed.

Lemma sendResultsMessage_emits channelId fm uploaded failed :
  emits (fun ev => is_report ev = true)
        (sendResultsMessage W channelId fm uploaded failed).
Proof.
  unfold sendResultsMessage, client_chat_postMessage. repeat emits_step.
Qed.

Lemma generateUniqueFileName_emits fileName :
  emits (fun ev => ev = DateNow \/ ev = RandomBytes 16)
        (generateUniqueFileName W fileName).
Proof.
  unfold generateUniqueFileName, sanitizeFileName, Date_now, crypto_randomBytes.
  repeat emits_step.
Qed.

Lemma generateUniqueFileName_returns fileName :
  returns (generateUniqueFileName W fileName).
Proof.
  unfold generateUniqueFileName, sanitizeFileName, Date_now, crypto_randomBytes.
  repeat returns_step.
Qed.

Lemma processFile_emits fm file :
  emits (fun ev => is_report ev = false /\ is_marker ev = false /\ is_lookup ev = false)
        (processFile W fm file).
Proof.
  unfold processFile, node_fetch, storage_uploadToStorage, logger, push_failed,
    push_uploaded.
  repeat first
    [ eapply emits_weaken; [| apply generateUniqueFileName_emits];
      by intros ev [-> | ->]
    | emits_step ].
Qed.

Lemma processFile_returns fm file : returns (processFile W fm file).
Proof.
  unfold processFile, logger, push_failed.
  repeat first [ apply generateUniqueFileName_returns | returns_step ].
Qed.

Lemma processFiles_emits fm :
  emits (fun ev => is_report ev = false /\ is_marker ev = false /\ is_lookup ev = false)
        (processFiles W fm).
Proof.
  unfold processFiles, logger.
  repeat first [ apply processFile_emits | emits_step ].
Qed.

Lemma processFiles_returns fm : returns (processFiles W fm).
Proof.
  unfold processFiles, logger.
  repeat first [ apply processFile_returns | returns_step ].
  all: intros s; simpl; eauto.
Qed.

End HandlerFacts.

Lemma try_catch_bind {S A B} (m : M S A) (k : A -> M S B) h s :
  try_catch (bind m k) h s =
  match m s with
  | (Normal a, s1) => try_catch (k a) h s1
  | (Throw e, s1) => h e s1
  end.
Proof. unfold try_catch, bind. by destruct (m s) as [[a|e] s1]. Qed.

Lemma fetched_app t1 t2 : fetched (t1 ++ t2) = fetched t1 ++ fetched t2.
Proof. apply omap_app. Qed.

Lemma fetched_none t : Forall (fun ev => is_fetch ev = false) t -> fetched t = [].
Proof.
  induction 1 as [|ev t Hev _ IH]; [done|].
  destruct ev; try done. all: exact IH.
Qed.

Section BatchFacts.

Variable W : World.
Variable fm : Message.

Lemma processFile_oversized file s l :
  oversized file = true ->
  processFile W fm file (s, l) = (Normal tt, (s, collect l [Failed (file_name file)])).
Proof.
  unfold oversized. intros Hbig. unfold processFile. rewrite Hbig.
  unfold collect; simpl. by rewrite app_nil_r.
Qed.

(** Closes a branch of [processFile] that ends in [failedFiles.push]. *)
Ltac ends_as_failure :=
  eexists (Failed _), _; split; [|done]; unfold collect; simpl; by rewrite app_nil_r.

Lemma processFile_outcome file s l :
  exists o s',
    processFile W fm file (s, l) = (Normal tt, (s', collect l [o]))
    /\ outcome_of W fm file o.
Proof.
  destruct (oversized file) eqn:Hbig.
  { exists (Failed (file_name file)), s. by rewrite processFile_oversized. }
  unfold processFile. fold (oversized file). rewrite Hbig.
  (* the download *)
  rewrite try_catch_bind. unfold lift at 1. simpl.
  destruct (fetch W _ _ _) as [response|e]; simpl; [|ends_as_failure].
  destruct (response_ok response); simpl; [|ends_as_failure].
  rewrite try_catch_bind. unfold await at 1.
  destruct (response_buffer response) as [buffer|e]; simpl; [|ends_as_failure].
  (* the name *)
  rewrite try_catch_bind. unfold lift at 1. simpl.
  destruct (generateUniqueFileName W (file_name file) _) as [[name|e] s1] eqn:Hname;
    simpl; [|ends_as_failure].
  (* the upload *)
  rewrite try_catch_bind. unfold lift at 1, call_uploadLimit. simpl.
  destruct (uploadLimit s1); simpl; [|ends_as_failure].
  destruct (uploadToStorage W _ _ _ _ _) as [[|]|e]; simpl;
    [|ends_as_failure|ends_as_failure].
  eexists (Succeeded _), _. split.
  - unfold collect; simpl. by rewrite app_nil_r.
  - simpl. eauto 10.
Qed.

(** A file within the limit is downloaded exactly once. *)
Lemma processFile_fetches file s l r sl' :
  oversized file = false ->
  processFile W fm file (s, l) = (r, sl') ->
  exists t, trace (fst sl') =
            trace s ++ Fetch (file_url_private file) ("Bearer " +:+ SLACK_BOT_TOKEN W) :: t
            /\ fetched t = [].
Proof.
  intros Hbig. unfold processFile. fold (oversized file). rewrite Hbig.
  rewrite try_catch_bind. unfold lift at 1. simpl.
  set (s1 := record _ s).
  assert (forall (m : M (Store * BatchResult) unit),
             emits (fun ev => is_fetch ev = false) m ->
             m (s1, l) = (r, sl') ->
             exists t, trace (fst sl') = trace s ++ Fetch (file_url_private file)
                                           ("Bearer " +:+ SLACK_BOT_TOKEN W) :: t
                       /\ fetched t = []) as Hrest.
  { intros m Hm Hrun. destruct (Hm _ _ _ Hrun) as (t & Ht & Hf & _).
    exists t. split; [|by apply fetched_none].
    unfold store_of, stateful_locals in Ht. simpl in Ht.
    by rewrite Ht, <- app_assoc. }
  destruct (fetch W _ _ _) as [response|e]; apply Hrest.
  - unfold storage_uploadToStorage, logger, push_failed, push_uploaded.
    repeat first
      [ eapply emits_weaken; [| apply generateUniqueFileName_emits];
        by intros ev [-> | ->]
      | emits_step ].
  - unfold logger, push_failed. repeat emits_step.
Qed.

Lemma processFile_step file s l :
  exists o s' t,
    processFile W fm file (s, l) = (Normal tt, (s', collect l [o]))
    /\ outcome_of W fm file o
    /\ trace s' = trace s ++ t
    /\ fetched t = (if oversized file then [] else [file_url_private file]).
Proof.
  destruct (processFile_outcome file s l) as (o & s' & Hrun & Ho).
  destruct (oversized file) eqn:Hbig.
  - rewrite processFile_oversized in Hrun by done.
    injection Hrun as <- _. exists (Failed (file_name file)), s, [].
    rewrite app_nil_r. split_and!; try done. by apply processFile_oversized.
  - destruct (processFile_fetches _ _ _ _ _ Hbig Hrun) as (t & Ht & Hf).
    exists o, s', (Fetch (file_url_private file) ("Bearer " +:+ SLACK_BOT_TOKEN W) :: t).
    split_and!; try done.
    change (file_url_private file :: fetched t = [file_url_private file]).
    by rewrite Hf.
Qed.

Lemma collect_app l os1 os2 : collect (collect l os1) os2 = collect l (os1 ++ os2).
Proof.
  unfold collect, successes, failures. simpl.
  by rewrite !omap_app, !app_assoc.
Qed.

Lemma for_of_processFile files : forall s l,
  exists os s' t,
    for_of files (processFile W fm) (s, l) = (Normal tt, (s', collect l os))
    /\ Forall2 (outcome_of W fm) files os
    /\ trace s' = trace s ++ t
    /\ fetched t = map file_url_private (filter (fun f => oversized f = false) files).
Proof.
  induction files as [|file files IH]; intros s l.
  - exists [], s, []. unfold collect. simpl. rewrite !app_nil_r.
    split_and!; try done. by destruct l.
  - destruct (processFile_step file s l) as (o & s1 & t1 & Hrun & Ho & Ht1 & Hf1).
    destruct (IH s1 (collect l [o])) as (os & s2 & t2 & Hrest & Hos & Ht2 & Hf2).
    exists (o :: os), s2, (t1 ++ t2). simpl. unfold bind at 1. rewrite Hrun, Hrest.
    rewrite collect_app. simpl. split_and!; try done.
    + by constructor.
    + by rewrite Ht2, Ht1, app_assoc.
    + rewrite fetched_app, Hf1, Hf2, filter_cons.
      destruct (oversized file); by simpl.
Qed.

Lemma processFiles_run s :
  exists os s' t,
    processFiles W fm s =
      (Normal {| uploadedFiles := successes os; failedFiles := failures os |}, s')
    /\ Forall2 (outcome_of W fm) (default [] (msg_files fm)) os
    /\ trace s' = trace s ++ t
    /\ fetched t = map file_url_private
                     (filter (fun f => oversized f = false) (default [] (msg_files fm))).
Proof.
  unfold processFiles, with_locals.
  set (files := default [] (msg_files fm)).
  set (l0 := {| uploadedFiles := []; failedFiles := [] |}).
  unfold bind at 1. unfold lift at 1, logger at 1. simpl.
  set (s1 := record _ s).
  destruct (for_of_processFile files s1 l0) as (os & s2 & t & Hrun & Hos & Ht & Hf).
  unfold bind at 1. rewrite Hrun. simpl.
  eexists os, _, (_ :: t ++ [_]). split; [reflexivity|]. split_and!; try done.
  - simpl. rewrite Ht. unfold s1. simpl. by rewrite <- !app_assoc.
  - change (?x :: t ++ ?y) with ([x] ++ t ++ y).
    rewrite !fetched_app, Hf. simpl. by rewrite app_nil_r.
Qed.

End BatchFacts.

(** ** The batch orchestrator *)

Lemma outcomes_length os :
  (length (successes os) + length (failures os) = length os)%nat.
Proof.
  induction os as [|[u|name] os IH]; simpl; [done| |];
    fold (successes os); fold (failures os); lia.
Qed.

Lemma failure_of_oversized W fm files os file :
  Forall2 (outcome_of W fm) files os ->
  file ∈ files -> oversized file = true -> file_name file ∈ failures os.
Proof.
  induction 1 as [|f o files os Ho _ IH]; intros Hin Hbig.
  - by apply elem_of_nil in Hin.
  - apply elem_of_cons in Hin as [<- | Hin].
    + destruct o as [u|name]; simpl in Ho.
      * destruct Ho as [Hsmall _]. congruence.
      * subst name. simpl. apply elem_of_cons. by left.
    + destruct o; simpl; [by apply IH|]. apply elem_of_cons. right. by apply IH.
Qed.

(** C1: for every FileMessage whose file list has length n, [processFiles]
    returns a BatchResult, and the number of entries of [uploadedFiles]
    plus the number of entries of [failedFiles] is n: every input file
    yields exactly one outcome, a success or a failure, and the two
    arrays hold these outcomes and nothing else. *)
Theorem processFiles_one_outcome_per_file W ts user files s :
  let fm := {| msg_ts := ts; msg_user := user; msg_files := Some files |} in
  exists r s' os,
    processFiles W fm s = (Normal r, s')
    /\ (length (uploadedFiles r) + length (failedFiles r) = length files)%nat
    /\ Forall2 (outcome_of W fm) files os
    /\ uploadedFiles r = successes os
    /\ failedFiles r = failures os.
Proof.
  intros fm.
  destruct (processFiles_run W fm s) as (os & s' & t & Hrun & Hos & _).
  eexists _, s', os. split; [exact Hrun|]. simpl. split_and!; try done.
  rewrite outcomes_length. symmetry. exact (Forall2_length _ _ _ Hos).
Qed.

(** C2: for every input file list, [processFiles] splits the outcomes of
    the files, taken in input order, into [uploadedFiles] and
    [failedFiles], each keeping the relative input order; in particular,
    for files [A; B; C] where B fails and A and C succeed, [failedFiles]
    is exactly [B] and [uploadedFiles] holds the entry of A and then that
    of C. *)
Theorem processFiles_preserves_input_order W ts user files s :
  let fm := {| msg_ts := ts; msg_user := user; msg_files := Some files |} in
  exists os s',
    processFiles W fm s
      = (Normal {| uploadedFiles := successes os; failedFiles := failures os |}, s')
    /\ Forall2 (outcome_of W fm) files os
    /\ (forall A B C a b c,
          files = [A; B; C] -> os = [Succeeded a; Failed b; Succeeded c] ->
          failures os = [file_name B] /\ successes os = [a; c]
          /\ outcome_of W fm A (Succeeded a) /\ outcome_of W fm C (Succeeded c)).
Proof.
  intros fm.
  destruct (processFiles_run W fm s) as (os & s' & t & Hrun & Hos & _).
  exists os, s'. split_and!; try done.
  intros A B C a b c -> ->.
  apply Forall2_cons in Hos as [Ha Hos].
  apply Forall2_cons in Hos as [Hb Hos].
  apply Forall2_cons in Hos as [Hc _].
  simpl in Hb. subst b. by split_and!.
Qed.

(** C3: a file whose declared size exceeds [MAX_FILE_SIZE] (2 GiB) is
    recorded in [failedFiles], and its transfer performs no call at all:
    the step of the loop leaves the store, and so the trace, as it was.
    Over the batch, the downloads attempted are exactly those of the
    files within the limit, in input order. *)
Theorem oversized_file_fails_without_network W ts user files s file :
  let fm := {| msg_ts := ts; msg_user := user; msg_files := Some files |} in
  file ∈ files ->
  MAX_FILE_SIZE < file_size file ->
  MAX_FILE_SIZE = 2147483648
  /\ (forall st l,
        processFile W fm file (st, l)
        = (Normal tt, (st, {| uploadedFiles := uploadedFiles l;
                              failedFiles := failedFiles l ++ [file_name file] |})))
  /\ exists r s' t,
       processFiles W fm s = (Normal r, s')
       /\ file_name file ∈ failedFiles r
       /\ trace s' = trace s ++ t
       /\ fetched t = map file_url_private
                        (filter (fun f => file_size f <= MAX_FILE_SIZE) files).
Proof.
  intros fm Hin Hsize.
  assert (oversized file = true) as Hbig by (by apply Z.ltb_lt).
  split; [done|]. split.
  { intros st l. rewrite processFile_oversized by done.
    unfold collect. simpl. by rewrite app_nil_r. }
  destruct (processFiles_run W fm s) as (os & s' & t & Hrun & Hos & Ht & Hf).
  eexists _, s', t. split; [exact Hrun|]. simpl in *. split_and!; try done.
  - by eapply failure_of_oversized.
  - rewrite Hf. f_equal. apply list_filter_iff. intros f. unfold oversized.
    rewrite Z.ltb_ge. done.
Qed.

Lemma oversized_file_fails_without_network_witness :
  Demo.fileB ∈ [Demo.fileA; Demo.fileB; Demo.fileC]
  /\ MAX_FILE_SIZE < file_size Demo.fileB
  /\ exists r s' t,
       processFiles Demo.world Demo.file_message Demo.start = (Normal r, s')
       /\ file_name Demo.fileB ∈ failedFiles r
       /\ trace s' = trace Demo.start ++ t
       /\ fetched t = ["https://files/A"; "https://files/C"].
Proof.
  assert (Demo.fileB ∈ [Demo.fileA; Demo.fileB; Demo.fileC]) as Hin
    by (apply elem_of_cons; right; apply elem_of_cons; by left).
  assert (MAX_FILE_SIZE < file_size Demo.fileB) as Hsize by (vm_compute; reflexivity).
  split; [exact Hin|]. split; [exact Hsize|].
  exact (proj2 (proj2 (oversized_file_fails_without_network
                         Demo.world "1700000000.000100" "U1"
                         [Demo.fileA; Demo.fileB; Demo.fileC] Demo.start Demo.fileB
                         Hin Hsize))).
Defined.

(** ** The entry point *)

Lemma isMessageTooOld_run W eventTs s :
  isMessageTooOld W eventTs s
  = (Normal (too_old (clock W (trace s)) eventTs), record DateNow s).
Proof. reflexivity. Qed.

Lemma lift_run {L A} (m : M Store A) s (l : L) r s' :
  m s = (r, s') -> lift m (s, l) = (r, (s', l)).
Proof. unfold lift. simpl. by intros ->. Qed.

Section EntryPoint.

Variable W : World.
Variable event : SlackEvent.

Lemma returns_run {A} (m : M Store A) s :
  returns m -> exists a s', m s = (Normal a, s').
Proof.
  intros Hm. destruct (Hm s) as [a Ha]. destruct (m s) as [r s'].
  simpl in Ha. subst r. eauto.
Qed.

(** The four ways a run of [handleFileUpload] can go. *)
Lemma handleFileUpload_cases s r s' :
  handleFileUpload W event s = (r, s') ->
  let s1 := record DateNow s in
  (too_old (clock W (trace s)) (event_ts event) = true /\ r = Normal tt /\ s' = s1)
  \/ (too_old (clock W (trace s)) (event_ts event) = false
      /\ exists found s2,
           findFileMessage W event s1 = (Normal found, s2)
           /\ match found with
              | None => r = Normal tt /\ s' = s2
              | Some fm =>
                  (is_Some (processedMessages s2 !! msg_ts fm)
                   /\ r = Normal tt /\ s' = s2)
                  \/ (processedMessages s2 !! msg_ts fm = None
                      /\ after_admission W event fm s2 r s')
              end).
Proof.
  intros Hrun s1. unfold handleFileUpload, with_locals in Hrun.
  rewrite try_catch_bind in Hrun.
  rewrite (lift_run _ _ _ _ _ (isMessageTooOld_run W _ s)) in Hrun. fold s1 in Hrun.
  destruct (too_old _ _) eqn:Hold.
  { left. unfold try_catch, ret in Hrun. simpl in Hrun. by injection Hrun as <- <-. }
  right. split; [done|].
  rewrite try_catch_bind in Hrun.
  destruct (returns_run _ s1 (findFileMessage_returns W event)) as (found & s2 & Hfind).
  rewrite (lift_run _ _ _ _ _ Hfind) in Hrun.
  exists found, s2. split; [done|].
  rewrite try_catch_bind in Hrun. unfold set_locals at 1 in Hrun. simpl in Hrun.
  destruct found as [fm|].
  2:{ unfold try_catch, ret in Hrun. simpl in Hrun. by injection Hrun as <- <-. }
  rewrite try_catch_bind in Hrun.
  unfold lift at 1, isMessageProcessed at 1 in Hrun. simpl in Hrun.
  case_bool_decide as Hproc.
  { left. unfold try_catch, ret in Hrun. simpl in Hrun. by injection Hrun as <- <-. }
  right. apply eq_None_not_Some in Hproc. split; [done|].
  rewrite try_catch_bind in Hrun.
  unfold lift at 1, markMessageAsProcessing at 1 in Hrun. simpl in Hrun.
  (* the marker *)
  rewrite try_catch_bind in Hrun.
  destruct (returns_run _ (mark_processed (msg_ts fm) s2)
              (addProcessingReaction_returns W event fm)) as ([] & s3 & Hadd).
  rewrite (lift_run _ _ _ _ _ Hadd) in Hrun.
  rewrite try_catch_bind in Hrun. unfold set_locals at 1 in Hrun. simpl in Hrun.
  (* the batch *)
  rewrite try_catch_bind in Hrun.
  destruct (returns_run _ s3 (processFiles_returns W fm)) as (result & s4 & Hbatch).
  rewrite (lift_run _ _ _ _ _ Hbatch) in Hrun.
  (* the report *)
  rewrite try_catch_bind in Hrun.
  destruct (sendResultsMessage W (channel_id event) fm
              (uploadedFiles result) (failedFiles result) s4) as [reported s5] eqn:Hsend.
  rewrite (lift_run _ _ _ _ _ Hsend) in Hrun.
  exists s3, result, s4, reported, s5. split_and!; try done.
  destruct reported as [[]|original].
  - (* the terminal marker *)
    destruct (returns_run _ s5 (updateReactions_returns W event fm
                (length (failedFiles result) =? 0)%nat)) as ([] & s6 & Hupd).
    unfold try_catch in Hrun. rewrite (lift_run _ _ _ _ _ Hupd) in Hrun.
    simpl in Hrun. by injection Hrun as <- <-.
  - (* the compensating path *)
    unfold bind at 1, lift at 1, logger at 1, external at 1 in Hrun. simpl in Hrun.
    unfold bind at 1, get_locals at 1 in Hrun. simpl in Hrun.
    unfold bind at 1 in Hrun.
    destruct (handleError W (channel_id event) (Some fm) true _) as [cleanup s6] eqn:Hclean.
    rewrite (lift_run _ _ _ _ _ Hclean) in Hrun.
    exists cleanup. destruct cleanup as [[]|fault]; simpl in Hrun;
      by injection Hrun as <- <-.
Qed.

(** After admission the ledger holds the timestamp, whatever happens. *)
Lemma after_admission_ledger fm s2 r s' :
  after_admission W event fm s2 r s' ->
  processedMessages s' = <[msg_ts fm := true]> (processedMessages s2)
  /\ uploadLimit s' = uploadLimit s2
  /\ exists t, trace s' = trace s2 ++ t.
Proof.
  intros (s3 & result & s4 & reported & s5 & Hadd & Hbatch & Hsend & Hend).
  destruct (addProcessingReaction_emits W event fm _ _ _ Hadd) as (t1 & T1 & _ & P1 & U1).
  destruct (processFiles_emits W fm _ _ _ Hbatch) as (t2 & T2 & _ & P2 & U2).
  destruct (sendResultsMessage_emits W _ _ _ _ _ _ _ Hsend) as (t3 & T3 & _ & P3 & U3).
  unfold store_of, stateful_store in *.
  destruct reported as [[]|original].
  - destruct Hend as [_ Hupd].
    destruct (updateReactions_emits W _ _ _ _ _ _ Hupd) as (t4 & T4 & _ & P4 & U4).
    unfold store_of, stateful_store in *.
    split_and!; [by rewrite P4, P3, P2, P1 | by rewrite U4, U3, U2, U1 |].
    exists (t1 ++ t2 ++ t3 ++ t4). rewrite T4, T3, T2, T1. simpl.
    by rewrite <- !app_assoc.
  - destruct Hend as (cleanup & Hclean & _).
    destruct (handleError_emits W _ _ _ _ _ _ Hclean) as (t4 & T4 & _ & P4 & U4).
    unfold store_of, stateful_store in *. simpl in *.
    split_and!; [by rewrite P4, P3, P2, P1 | by rewrite U4, U3, U2, U1 |].
    exists (t1 ++ t2 ++ t3 ++ [Log LError ("Upload failed: " +:+ message original) NoArg]
            ++ t4).
    rewrite T4, T3, T2, T1. simpl. by rewrite <- !app_assoc.
Qed.

End EntryPoint.

Lemma idle_DateNow : idle DateNow.
Proof. by repeat split. Qed.

Lemma idle_lookup_or_log ev : is_lookup ev = true \/ is_log ev = true -> idle ev.
Proof. destruct ev; intros [?|?]; by repeat split. Qed.

Lemma added_none t : Forall idle t -> added t = [].
Proof.
  induction 1 as [|ev t Hev _ IH]; [done|].
  destruct ev; try exact IH. by destruct Hev as (_ & _ & ?).
Qed.

Lemma record_trace ev s : trace (record ev s) = trace s ++ [ev].
Proof. reflexivity. Qed.

(** A run that stops at the admission gate: only the clock read and the
    lookup were performed, and the ledger is as before. *)
Lemma stopped_at_gate W event s found s2 :
  findFileMessage W event (record DateNow s) = (Normal found, s2) ->
  processedMessages s2 = processedMessages s
  /\ exists t, trace s2 = trace s ++ t /\ Forall idle t.
Proof.
  intros Hfind.
  destruct (findFileMessage_emits W event _ _ _ Hfind) as (t & Ht & Hf & Hpm & _).
  unfold store_of, stateful_store in *. split; [done|].
  exists (DateNow :: t). split.
  - by rewrite Ht, record_trace, <- app_assoc.
  - constructor; [apply idle_DateNow|].
    eapply Forall_impl; [exact Hf|]. apply idle_lookup_or_log.
Qed.

(** C6: an event whose origin timestamp is more than 24 hours older than
    the current time (the age [Date.now() - parseFloat(event_ts) * 1000]
    exceeds 86 400 000 ms) is dropped at once: the run returns having read
    the clock and nothing else, so no reaction is added, no ledger entry
    is created, nothing is transferred and nothing is reported. *)
Theorem stale_event_is_dropped W event s :
  too_old (clock W (trace s)) (event_ts event) = true ->
  exists s',
    handleFileUpload W event s = (Normal tt, s')
    /\ trace s' = trace s ++ [DateNow]
    /\ processedMessages s' = processedMessages s
    /\ uploadLimit s' = uploadLimit s.
Proof.
  intros Hold.
  destruct (handleFileUpload W event s) as [r s'] eqn:Hrun.
  destruct (handleFileUpload_cases W event s r s' Hrun) as [(_ & -> & ->) | (Hnew & _)].
  - by exists (record DateNow s).
  - congruence.
Qed.

Lemma stale_event_is_dropped_witness :
  too_old (clock Demo.world (trace Demo.start)) (event_ts Demo.archived_event) = true
  /\ exists s',
       handleFileUpload Demo.world Demo.archived_event Demo.start = (Normal tt, s')
       /\ trace s' = trace Demo.start ++ [DateNow]
       /\ processedMessages s' = processedMessages Demo.start
       /\ uploadLimit s' = uploadLimit Demo.start.
Proof.
  assert (too_old (clock Demo.world (trace Demo.start)) (event_ts Demo.archived_event)
          = true) as Hold by (vm_compute; reflexivity).
  split; [exact Hold|].
  exact (stale_event_is_dropped Demo.world Demo.archived_event Demo.start Hold).
Defined.

(** Why a resolution fails: Slack does not know the file, or the file is
    not shared in the channel of the event. *)
Lemma findFileMessage_without_info W event s :
  match files_info W (trace s) (file_id event) with
  | Normal fileInfo => info_ok fileInfo = false \/ info_file fileInfo = None
  | Throw _ => True
  end ->
  fst (findFileMessage W event s) = Normal None.
Proof.
  unfold findFileMessage. rewrite try_catch_bind.
  unfold client_files_info at 1, external at 1.
  destruct (files_info W _ _) as [[ok file]|e]; simpl; [|done].
  intros [-> | ->]; [done|]. by destruct ok.
Qed.

Lemma findFileMessage_without_share W event s fileInfo file :
  files_info W (trace s) (file_id event) = Normal fileInfo ->
  info_file fileInfo = Some file ->
  channelShare_of file (channel_id event) = None
  \/ channelShare_of file (channel_id event) = Some [] ->
  fst (findFileMessage W event s) = Normal None.
Proof.
  intros Hinfo Hfile Hshare. unfold findFileMessage. rewrite try_catch_bind.
  unfold client_files_info at 1, external at 1. rewrite Hinfo, Hfile.
  destruct (info_ok fileInfo); [|done].
  by destruct Hshare as [-> | ->].
Qed.

(** C7: when the resolution of the FileMessage fails ([findFileMessage]
    returns no message), [handleFileUpload] returns without any partial
    processing: no reaction is added (zero calls of [reactions.add]), no
    marker is changed, no transfer runs, no report is sent, and the
    ledger is as before. *)
Theorem unresolved_event_is_abandoned W event s s1 :
  findFileMessage W event (record DateNow s) = (Normal None, s1) ->
  exists s' t,
    handleFileUpload W event s = (Normal tt, s')
    /\ trace s' = trace s ++ t
    /\ added t = []
    /\ Forall idle t
    /\ processedMessages s' = processedMessages s.
Proof.
  intros Hfind.
  destruct (stopped_at_gate _ _ _ _ _ Hfind) as (Hpm & t & Ht & Hidle).
  destruct (handleFileUpload W event s) as [r s'] eqn:Hrun.
  destruct (handleFileUpload_cases W event s r s' Hrun)
    as [(_ & -> & ->) | (_ & found & s2 & Hfind' & Hcase)].
  - exists (record DateNow s), [DateNow]. split_and!; try done.
    repeat constructor.
  - rewrite Hfind in Hfind'. injection Hfind' as <- <-.
    destruct Hcase as [-> ->].
    exists s1, t. split_and!; try done. by apply added_none.
Qed.

Lemma unresolved_event_is_abandoned_witness :
  findFileMessage Demo.file_unknown Demo.event (record DateNow Demo.start)
  = (Normal None,
     snd (findFileMessage Demo.file_unknown Demo.event (record DateNow Demo.start)))
  /\ exists s' t,
       handleFileUpload Demo.file_unknown Demo.event Demo.start = (Normal tt, s')
       /\ trace s' = trace Demo.start ++ t
       /\ added t = []
       /\ Forall idle t
       /\ processedMessages s' = processedMessages Demo.start.
Proof.
  assert (findFileMessage Demo.file_unknown Demo.event (record DateNow Demo.start)
          = (Normal None,
             snd (findFileMessage Demo.file_unknown Demo.event (record DateNow Demo.start))))
    as Hfind by (vm_compute; reflexivity).
  split; [exact Hfind|].
  exact (unresolved_event_is_abandoned Demo.file_unknown Demo.event Demo.start _ Hfind).
Defined.

(** The ledger never loses an entry. *)
Lemma handleFileUpload_ledger_grows W event s r s' :
  handleFileUpload W event s = (r, s') ->
  processedMessages s ⊆ processedMessages s'.
Proof.
  intros Hrun.
  destruct (handleFileUpload_cases W event s r s' Hrun)
    as [(_ & _ & ->) | (_ & found & s2 & Hfind & Hcase)]; [done|].
  destruct (stopped_at_gate _ _ _ _ _ Hfind) as (Hpm & _).
  destruct found as [fm|].
  - destruct Hcase as [(_ & _ & ->) | (Hnone & Hafter)].
    + by rewrite Hpm.
    + apply after_admission_ledger in Hafter as (-> & _).
      rewrite <- Hpm. by apply insert_subseteq.
  - destruct Hcase as [_ ->]. by rewrite Hpm.
Qed.

(** An event that resolves to a message of the ledger stops at the gate. *)
Lemma processed_message_is_skipped W event s fm sb :
  is_Some (processedMessages s !! msg_ts fm) ->
  findFileMessage W event (record DateNow s) = (Normal (Some fm), sb) ->
  exists s' t,
    handleFileUpload W event s = (Normal tt, s')
    /\ trace s' = trace s ++ t
    /\ Forall idle t
    /\ processedMessages s' = processedMessages s.
Proof.
  intros Hin Hfind.
  destruct (stopped_at_gate _ _ _ _ _ Hfind) as (Hpm & t & Ht & Hidle).
  destruct (handleFileUpload W event s) as [r s'] eqn:Hrun.
  destruct (handleFileUpload_cases W event s r s' Hrun)
    as [(_ & -> & ->) | (_ & found & s2 & Hfind' & Hcase)].
  - exists (record DateNow s), [DateNow]. split_and!; try done.
    repeat constructor.
  - rewrite Hfind in Hfind'. injection Hfind' as <- <-.
    destruct Hcase as [(_ & -> & ->) | (Hnone & _)].
    + by exists sb, t.
    + rewrite Hpm in Hnone. rewrite Hnone in Hin. by destruct Hin.
Qed.

(** C4: a message timestamp is admitted at most once.  Let a first
    invocation resolve to a message and reach the admission gate.  Up to
    the gate it has only read the clock and looked the message up; the
    timestamp is entered in the ledger there, and the marker, the
    transfers and the report all come after.  However that invocation
    completes, normally or by an exception raised after admission, the
    timestamp is then in the ledger, and an invocation that starts from
    that store or a later one and resolves to the same timestamp returns
    without a transfer, a report or a marker change, and leaves the
    ledger as it was. *)
Theorem message_admitted_at_most_once W e1 s0 fm1 sa r1 s1 e2 s fm2 sb :
  too_old (clock W (trace s0)) (event_ts e1) = false ->
  findFileMessage W e1 (record DateNow s0) = (Normal (Some fm1), sa) ->
  handleFileUpload W e1 s0 = (r1, s1) ->
  processedMessages s1 ⊆ processedMessages s ->
  findFileMessage W e2 (record DateNow s) = (Normal (Some fm2), sb) ->
  msg_ts fm2 = msg_ts fm1 ->
  (exists t0, trace sa = trace s0 ++ t0 /\ Forall idle t0)
  /\ (is_Some (processedMessages s0 !! msg_ts fm1) /\ r1 = Normal tt /\ s1 = sa
      \/ processedMessages s0 !! msg_ts fm1 = None
         /\ after_admission W e1 fm1 sa r1 s1)
  /\ is_Some (processedMessages s1 !! msg_ts fm1)
  /\ exists s2 t,
       handleFileUpload W e2 s = (Normal tt, s2)
       /\ trace s2 = trace s ++ t
       /\ Forall idle t
       /\ processedMessages s2 = processedMessages s.
Proof.
  intros Hfresh Hfind1 Hrun1 Hlater Hfind2 Hts.
  destruct (stopped_at_gate _ _ _ _ _ Hfind1) as (Hpm & t0 & Ht0 & Hidle).
  split; [by exists t0|].
  assert ((is_Some (processedMessages s0 !! msg_ts fm1) /\ r1 = Normal tt /\ s1 = sa
           \/ processedMessages s0 !! msg_ts fm1 = None
              /\ after_admission W e1 fm1 sa r1 s1)
          /\ is_Some (processedMessages s1 !! msg_ts fm1)) as [Hway Hin].
  { destruct (handleFileUpload_cases W e1 s0 r1 s1 Hrun1)
      as [(Hold & _) | (_ & found & s2 & Hfind & Hcase)]; [congruence|].
    rewrite Hfind1 in Hfind. injection Hfind as <- <-.
    rewrite Hpm in Hcase.
    destruct Hcase as [(Hb & -> & ->) | (Hnone & Hafter)].
    - split; [by left|]. by rewrite Hpm.
    - split; [by right|].
      apply after_admission_ledger in Hafter as (-> & _).
      rewrite lookup_insert_eq. by eexists. }
  split_and!; try done.
  eapply processed_message_is_skipped; [|exact Hfind2].
  rewrite Hts. eapply lookup_weaken_is_Some; eauto.
Qed.

Lemma message_admitted_at_most_once_witness :
  let first := handleFileUpload Demo.report_fails Demo.event Demo.start in
  fst first = Throw (Demo.platform_error "channel_not_found")
  /\ is_Some (processedMessages (snd first) !! msg_ts Demo.file_message)
  /\ exists s2 t,
       handleFileUpload Demo.report_fails Demo.event (snd first) = (Normal tt, s2)
       /\ trace s2 = trace (snd first) ++ t
       /\ Forall idle t
       /\ processedMessages s2 = processedMessages (snd first).
Proof.
  intros first.
  split; [vm_compute; reflexivity|].
  refine (proj2 (proj2 (message_admitted_at_most_once
            Demo.report_fails Demo.event Demo.start Demo.file_message
            (snd (findFileMessage Demo.report_fails Demo.event (record DateNow Demo.start)))
            (fst first) (snd first)
            Demo.event (snd first) Demo.file_message
            (snd (findFileMessage Demo.report_fails Demo.event (record DateNow (snd first))))
            _ _ _ _ _ _))).
  - vm_compute; reflexivity.
  - vm_compute; reflexivity.
  - apply surjective_pairing.
  - reflexivity.
  - vm_compute; reflexivity.
  - reflexivity.
Defined.

(** ** Staleness of an undated event *)

Lemma too_old_NaN now eventTs :
  parseFloat eventTs = Number.NaN -> too_old now eventTs = false.
Proof.
  intros Hnan. unfold too_old. rewrite Hnan.
  change (Number.mul Number.NaN (Number.of_Z 1000)) with Number.NaN.
  assert (forall x, Number.sub x Number.NaN = Number.NaN) as -> by (by intros []).
  unfold Number.gt, SFltb. by destruct (Number.of_Z _).
Qed.

(** The resolution starts by asking Slack about the file. *)
Lemma findFileMessage_asks W event s r s' :
  findFileMessage W event s = (r, s') ->
  exists t, trace s' = trace s ++ FilesInfo (file_id event) :: t.
Proof.
  unfold findFileMessage. rewrite try_catch_bind.
  unfold client_files_info at 1, external at 1.
  set (s1 := record _ s).
  assert (forall (m : M Store (option Message)),
             emits (fun _ => True) m -> m s1 = (r, s') ->
             exists t, trace s' = trace s ++ FilesInfo (file_id event) :: t) as Hrest.
  { intros m Hm Hrun. destruct (Hm _ _ _ Hrun) as (t & Ht & _).
    exists t. unfold store_of, stateful_store in Ht.
    rewrite Ht. unfold s1. by rewrite record_trace, <- app_assoc. }
  destruct (files_info W _ _) as [fileInfo|e]; apply Hrest.
  - unfold client_conversations_history, logger.
    repeat first [ apply emits_external; done | emits_step ].
  - unfold logger. repeat first [ apply emits_external; done | emits_step ].
Qed.

(** C10: when the declared origin timestamp of an event does not parse
    as a number ([parseFloat] yields NaN), the staleness check answers
    false whatever the clock reads, so the event is never dropped as
    stale: the handler goes on to the resolution of the message and, when
    that yields a message not yet in the ledger, to its admission. *)
Theorem undated_event_is_never_stale W event s :
  parseFloat (event_ts event) = Number.NaN ->
  (forall now, too_old now (event_ts event) = false)
  /\ isMessageTooOld W (event_ts event) s = (Normal false, record DateNow s)
  /\ (exists r s' t,
        handleFileUpload W event s = (r, s')
        /\ trace s' = trace s ++ DateNow :: FilesInfo (file_id event) :: t)
  /\ (forall fm s2,
        findFileMessage W event (record DateNow s) = (Normal (Some fm), s2) ->
        processedMessages s !! msg_ts fm = None ->
        exists r s',
          handleFileUpload W event s = (r, s')
          /\ processedMessages s' = <[msg_ts fm := true]> (processedMessages s)).
Proof.
  intros Hnan.
  assert (forall now, too_old now (event_ts event) = false) as Hfresh
    by (intros now; by apply too_old_NaN).
  split; [done|]. split.
  { by rewrite isMessageTooOld_run, Hfresh. }
  destruct (handleFileUpload W event s) as [r s'] eqn:Hrun.
  destruct (handleFileUpload_cases W event s r s' Hrun)
    as [(Hold & _) | (_ & found & s2 & Hfind & Hcase)].
  { by rewrite Hfresh in Hold. }
  destruct (findFileMessage_asks _ _ _ _ _ Hfind) as (t & Ht).
  destruct (stopped_at_gate _ _ _ _ _ Hfind) as (Hpm & _).
  rewrite record_trace, <- app_assoc in Ht. simpl in Ht.
  split.
  - exists r, s'. destruct found as [fm|].
    + destruct Hcase as [(_ & _ & ->) | (_ & Hafter)].
      * by exists t.
      * apply after_admission_ledger in Hafter as (_ & _ & t' & Ht').
        exists (t ++ t'). rewrite Ht', Ht, <- app_assoc. done.
    + destruct Hcase as [_ ->]. by exists t.
  - intros fm s2' Hfind' Hnone. rewrite Hfind in Hfind'. injection Hfind' as -> <-.
    exists r, s'. split; [done|].
    destruct Hcase as [(Hsome & _) | (_ & Hafter)].
    + rewrite Hpm, Hnone in Hsome. by destruct Hsome.
    + apply after_admission_ledger in Hafter as (-> & _). by rewrite Hpm.
Qed.

Lemma undated_event_is_never_stale_witness :
  parseFloat (event_ts Demo.undated_event) = Number.NaN
  /\ isMessageTooOld Demo.world (event_ts Demo.undated_event) Demo.start
     = (Normal false, record DateNow Demo.start)
  /\ exists r s' t,
       handleFileUpload Demo.world Demo.undated_event Demo.start = (r, s')
       /\ trace s' = trace Demo.start ++ DateNow :: FilesInfo "F1" :: t.
Proof.
  assert (parseFloat (event_ts Demo.undated_event) = Number.NaN) as Hnan
    by (vm_compute; reflexivity).
  split; [exact Hnan|].
  pose proof (undated_event_is_never_stale Demo.world Demo.undated_event Demo.start Hnan)
    as (_ & Hcheck & Hgoes & _).
  split; [exact Hcheck | exact Hgoes].
Defined.

(** ** Stored names *)

Lemma allowed_name_class c : allowed c = bool_decide (c ∈ name_class).
Proof. destruct c as [[] [] [] [] [] [] [] []]; vm_compute; reflexivity. Qed.

Lemma replace_disallowed_length fileName :
  String.length (replace_disallowed fileName) = String.length fileName.
Proof. induction fileName as [|c rest IH]; simpl; congruence. Qed.

Lemma replace_disallowed_get fileName : forall i,
  String.get i (replace_disallowed fileName)
  = (fun c => if bool_decide (c ∈ name_class) then c else "_"%char)
      <$> String.get i fileName.
Proof.
  induction fileName as [|c rest IH]; intros i; [done|].
  destruct i as [|i]; simpl.
  - by rewrite allowed_name_class.
  - apply IH.
Qed.

Lemma to_hex_length bs : String.length (to_hex bs) = (2 * length bs)%nat.
Proof.
  induction bs as [|b bs IH]; [done|].
  change (to_hex (b :: bs))
    with (String (hex_digit (Byte.to_N b / 16))
            (String (hex_digit (Byte.to_N b mod 16)) (to_hex bs))).
  cbn [String.length length]. rewrite IH. lia.
Qed.

(** C9: for every original file name, the stored name is the current
    time in milliseconds, a dash, 16 random bytes in hexadecimal (32
    digits), a dash and the sanitized name.  Sanitizing replaces each
    character outside [[A-Za-z0-9.-]] by an underscore and keeps the
    others in place; when the result is empty it is replaced by
    [upload_] followed by the current time in milliseconds, read anew. *)
Theorem stored_name_format W fileName s :
  let now := clock W (trace s) in
  let bytes := map (entropy W (trace s ++ [DateNow])) (seq 0 16) in
  let later := clock W (trace s ++ [DateNow; RandomBytes 16]) in
  let replaced := replace_disallowed fileName in
  let sanitized :=
    if decide (replaced = "") then "upload_" +:+ dec later else replaced in
  (exists s',
      generateUniqueFileName W fileName s
      = (Normal (dec now +:+ "-" +:+ to_hex bytes +:+ "-" +:+ sanitized), s'))
  /\ length bytes = 16%nat
  /\ String.length (to_hex bytes) = 32%nat
  /\ String.length replaced = String.length fileName
  /\ (forall i,
        String.get i replaced
        = (fun c => if bool_decide (c ∈ name_class) then c else "_"%char)
            <$> String.get i fileName).
Proof.
  intros now bytes later replaced sanitized. split_and!.
  - unfold generateUniqueFileName, sanitizeFileName.
    fold replaced. unfold sanitized, later. clear sanitized later.
    replace (trace s ++ [DateNow; RandomBytes 16])
      with ((trace s ++ [DateNow]) ++ [RandomBytes 16]) by (by rewrite <- app_assoc).
    destruct replaced as [|c rest].
    + rewrite decide_True by done. eexists. reflexivity.
    + rewrite decide_False by done. eexists. reflexivity.
  - unfold bytes. by rewrite length_map, length_seq.
  - rewrite to_hex_length. unfold bytes. by rewrite length_map, length_seq.
  - apply replace_disallowed_length.
  - apply replace_disallowed_get.
Qed.

Example sanitize_example :
  replace_disallowed "my file (1).tar.gz" = "my_file__1_.tar.gz".
Proof. reflexivity. Qed.

(** ** Marker signalling *)

(** As soon as the removal of the in-progress marker fails, the terminal
    marker is not attempted: the failure is logged and the transition ends. *)
Lemma updateReactions_removal_fails W event fm success s err :
  reactions_remove W (trace s) "beachball" (msg_ts fm) (channel_id event) = Throw err ->
  updateReactions W event fm success s
  = (Normal tt,
     record (Log LError "Failed to update reactions:" (StrArg (message err)))
            (record (ReactionsRemove "beachball" (msg_ts fm) (channel_id event)) s)).
Proof.
  intros Hfail. unfold updateReactions. rewrite try_catch_bind.
  unfold client_reactions_remove at 1, external at 1. by rewrite Hfail.
Qed.

(** When the removal succeeds, the terminal marker is attempted. *)
Lemma updateReactions_removal_succeeds W event fm success s :
  reactions_remove W (trace s) "beachball" (msg_ts fm) (channel_id event) = Normal tt ->
  exists s' t,
    updateReactions W event fm success s = (Normal tt, s')
    /\ trace s' = trace s ++ t
    /\ removed t = ["beachball"]
    /\ added t = [if success then "white_check_mark" else "x"].
Proof.
  intros Hok. unfold updateReactions. rewrite try_catch_bind.
  unfold client_reactions_remove at 1, external at 1. rewrite Hok.
  unfold try_catch, client_reactions_add, external.
  destruct (reactions_add W _ _ _ _) as [[]|err]; simpl.
  - eexists _, [_; _]. split; [reflexivity|]. simpl. by rewrite <- app_assoc.
  - eexists _, [_; _; _]. split; [reflexivity|]. simpl. by rewrite <- !app_assoc.
Qed.

(** C8 (evaluation of the code where it departs from the claim): the marker
    of the message could not be set, so the removal of the in-progress
    marker answers [no_reaction]; [updateReactions] logs it and returns
    without attempting to add the terminal marker, although adding it
    would have succeeded.  No exception escapes. *)
Theorem updateReactions_skips_terminal_marker :
  let run := updateReactions Demo.no_beachball Demo.event Demo.file_message false Demo.start in
  reactions_add Demo.no_beachball
    (trace Demo.start ++ [ReactionsRemove "beachball" "1700000000.000100" "C1"])
    "x" "1700000000.000100" "C1" = Normal tt
  /\ fst run = Normal tt
  /\ trace (snd run)
     = [ReactionsRemove "beachball" "1700000000.000100" "C1";
        Log LError "Failed to update reactions:"
            (StrArg "An API error occurred: no_reaction")]
  /\ added (trace (snd run)) = []
  /\ added (trace (snd (handleFileUpload Demo.no_beachball Demo.event Demo.start)))
     = ["beachball"].
Proof.
  intros run. split; [reflexivity|].
  unfold run.
  rewrite (updateReactions_removal_fails Demo.no_beachball Demo.event Demo.file_message
             false Demo.start (Demo.platform_error "no_reaction") eq_refl).
  split_and!; reflexivity.
Qed.

(** The compensating path does what it should whenever the removal of the
    in-progress marker succeeds or fails with an error that carries
    [data]: one removal and one addition of the failure marker, and no
    exception of its own. *)
Lemma handleError_compensates W channelId fm s :
  (forall err,
      reactions_remove W (trace s) "beachball" (msg_ts fm) channelId = Throw err ->
      is_Some (data err)) ->
  exists s' t,
    handleError W channelId (Some fm) true s = (Normal tt, s')
    /\ trace s' = trace s ++ t
    /\ removed t = ["beachball"]
    /\ added t = ["x"].
Proof.
  intros Hdata. unfold handleError, bind, try_catch, client_reactions_remove,
    client_reactions_add, logger, external.
  destruct (reactions_remove W _ _ _ _) as [[]|err] eqn:Hrm; simpl.
  - destruct (reactions_add W _ _ _ _) as [[]|err']; simpl.
    + eexists _, [_; _]. split; [reflexivity|]. simpl. by rewrite <- app_assoc.
    + eexists _, [_; _; _]. split; [reflexivity|]. simpl. by rewrite <- !app_assoc.
  - destruct (Hdata err eq_refl) as [d Hd]. rewrite Hd.
    destruct (negb _); simpl.
    + destruct (reactions_add W _ _ _ _) as [[]|err']; simpl.
      * eexists _, [_; _; _]. split; [reflexivity|]. simpl. by rewrite <- !app_assoc.
      * eexists _, [_; _; _; _]. split; [reflexivity|]. simpl. by rewrite <- !app_assoc.
    + destruct (reactions_add W _ _ _ _) as [[]|err']; simpl.
      * eexists _, [_; _]. split; [reflexivity|]. simpl. by rewrite <- !app_assoc.
      * eexists _, [_; _; _]. split; [reflexivity|]. simpl. by rewrite <- !app_assoc.
Qed.

(** An exception escapes [handleFileUpload] only when the report throws,
    after the in-progress marker was attempted.  If the removal of the
    marker then succeeds, or fails with an error that carries [data], the
    compensating path removes the marker once, adds the failure marker
    once, and the caller receives the exception of the report. *)
Lemma handleFileUpload_compensates W event s e s' :
  handleFileUpload W event s = (Throw e, s') ->
  exists fm result s4 original s5,
    sendResultsMessage W (channel_id event) fm
      (uploadedFiles result) (failedFiles result) s4 = (Throw original, s5)
    /\ let s6 := record (Log LError ("Upload failed: " +:+ message original) NoArg) s5 in
       (forall err,
           reactions_remove W (trace s6) "beachball" (msg_ts fm) (channel_id event)
           = Throw err -> is_Some (data err)) ->
       e = original
       /\ exists t, trace s' = trace s6 ++ t
                    /\ removed t = ["beachball"] /\ added t = ["x"].
Proof.
  intros Hrun.
  destruct (handleFileUpload_cases W event s _ s' Hrun)
    as [(_ & ? & _) | (_ & found & s2 & _ & Hcase)]; [done|].
  destruct found as [fm|]; [|by destruct Hcase].
  destruct Hcase as [(_ & ? & _) | (_ & Hafter)]; [done|].
  destruct Hafter as (s3 & result & s4 & reported & s5 & _ & _ & Hsend & Hend).
  destruct reported as [[]|original]; [by destruct Hend|].
  destruct Hend as (cleanup & Hclean & Hr).
  exists fm, result, s4, original, s5. split; [done|].
  intros s6 Hdata.
  destruct (handleError_compensates W (channel_id event) fm s6 Hdata)
    as (s7 & t & Hok & Ht & Hrm & Hadd).
  fold s6 in Hclean. rewrite Hok in Hclean. injection Hclean as <- <-.
  split; [congruence|]. by exists t.
Qed.

(** A removal that fails without [data] makes [handleError] itself throw,
    before the failure marker is attempted. *)
Lemma handleError_breaks_on_transport_error W channelId fm s err :
  reactions_remove W (trace s) "beachball" (msg_ts fm) channelId = Throw err ->
  data err = None ->
  handleError W channelId (Some fm) true s
  = (Throw (TypeError "Cannot read properties of undefined (reading 'error')"),
     record (ReactionsRemove "beachball" (msg_ts fm) channelId) s).
Proof.
  intros Hfail Hnone. unfold handleError, bind, try_catch, client_reactions_remove,
    external. by rewrite Hfail, Hnone.
Qed.

(** C5 (evaluation of the code where it departs from the claim): the
    connection to Slack is lost after the files are stored.  Posting the
    summary throws a transport error; in the compensating path the removal
    of the in-progress marker throws a transport error too, which has no
    [data]; reading [cleanupError.data.error] then throws a TypeError out
    of [handleError].  The failure marker is never added, and the caller
    receives the TypeError instead of the original exception. *)
Theorem handleError_masks_original_exception :
  let run := handleFileUpload Demo.connection_lost Demo.event Demo.start in
  chat_postMessage Demo.connection_lost [] "C1" "1700000000.000100" ""
    = Throw Demo.request_error
  /\ fst run = Throw (TypeError "Cannot read properties of undefined (reading 'error')")
  /\ fst run <> Throw Demo.request_error
  /\ removed (trace (snd run)) = ["beachball"]
  /\ added (trace (snd run)) = ["beachball"].
Proof.
  intros run. split; [reflexivity|].
  assert (fst run = Throw (TypeError "Cannot read properties of undefined (reading 'error')"))
    as Hthrown by (vm_compute; reflexivity).
  split_and!.
  - exact Hthrown.
  - rewrite Hthrown. discriminate.
  - vm_compute; reflexivity.
  - vm_compute; reflexivity.
Qed.

(** With a platform error in place of the transport error, the same run
    compensates and re-raises the original exception. *)
Example handleFileUpload_compensates_on_platform_error :
  let run := handleFileUpload Demo.report_fails Demo.event Demo.start in
  fst run = Throw (Demo.platform_error "channel_not_found")
  /\ removed (trace (snd run)) = ["beachball"]
  /\ added (trace (snd run)) = ["beachball"; "x"].
Proof. vm_compute. by split_and!. Qed.

(** ** Runs of the handler in the concrete world *)

(** B is over the limit, A and C are stored: [failedFiles] is [B] and
    [uploadedFiles] holds the entry of A, then that of C. *)
Example processFiles_A_B_C :
  fst (processFiles Demo.world Demo.file_message Demo.start)
  = Normal
      {| uploadedFiles :=
           [ {| up_name := "1700000001002-00112233445566778899aabbccddeeff-a_b.png";
                up_url := "https://cdn/s/U1/1700000001002-00112233445566778899aabbccddeeff-a_b.png";
                up_contentType := "image/png" |};
             {| up_name := "1700000001006-00112233445566778899aabbccddeeff-upload_1700000001008";
                up_url := "https://cdn/s/U1/1700000001006-00112233445566778899aabbccddeeff-upload_1700000001008";
                up_contentType := "text/plain" |} ];
         failedFiles := ["B.bin"] |}.
Proof. vm_compute. reflexivity. Qed.

(** A complete run: the marker, the downloads, the report and the
    terminal marker. *)
Example handleFileUpload_effects :
  let t := trace (snd (handleFileUpload Demo.world Demo.event Demo.start)) in
  added t = ["beachball"; "x"]
  /\ removed t = ["beachball"]
  /\ fetched t = ["https://files/A"; "https://files/C"]
  /\ length (filter (fun ev => is_report ev = true) t) = 1%nat.
Proof. vm_compute. by split_and!. Qed.

(** Before [initialize] the limiter is undefined: each file within the
    limit is downloaded, and fails when its upload is scheduled. *)
Example processFiles_before_initialize :
  let run := processFiles Demo.world Demo.file_message loaded in
  fst run = Normal {| uploadedFiles := []; failedFiles := ["a b.png"; "B.bin"; ""] |}
  /\ fetched (trace (snd run)) = ["https://files/A"; "https://files/C"].
Proof. vm_compute. by split. Qed.

(** The staleness window at its boundary, for a clock at 1700000001000:
    an event exactly 24 hours old is kept, one a microsecond older is
    dropped. *)
Example too_old_boundary :
  too_old 1700000001000 "1699913601.000000" = false
  /\ too_old 1700000001000 "1699913600.999999" = true
  /\ too_old 1700000001000 "1700000000.000200" = false
  /\ too_old 1700000001000 "-Infinity" = true
  /\ too_old 1700000001000 "Infinity" = false.
Proof. vm_compute. by split_and!. Qed.

Example parseFloat_examples :
  parseFloat "0.1" = S754_finite false 7205759403792794 (-56)
  /\ parseFloat "  -12.5e-1xyz" = S754_finite true 5629499534213120 (-52)
  /\ parseFloat "1e400" = S754_infinity false
  /\ parseFloat "yesterday" = Number.NaN
  /\ parseFloat "" = Number.NaN
  /\ parseFloat "." = Number.NaN.
Proof. vm_compute. by split_and!. Qed.

(** ** More on stored names *)

Lemma safe_name_app a b : safe_name a -> safe_name b -> safe_name (a +:+ b).
Proof.
  unfold safe_name. induction a as [|c a IH]; simpl; [done|].
  intros Ha Hb. apply Forall_cons in Ha as [Hc Ha]. constructor; auto.
Qed.

Lemma allowed_safe c : allowed c = true -> safe_char c.
Proof. rewrite allowed_name_class, bool_decide_eq_true. by left. Qed.

Lemma replace_disallowed_safe name : safe_name (replace_disallowed name).
Proof.
  unfold safe_name. induction name as [|c name IH]; simpl; constructor; [|done].
  destruct (allowed c) eqn:Hc; [by apply allowed_safe | by right].
Qed.

Lemma replace_disallowed_fixed name :
  safe_name name -> replace_disallowed name = name.
Proof.
  unfold safe_name. induction name as [|c name IH]; simpl; [done|].
  intros Hs. apply Forall_cons in Hs as [Hc Hs]. rewrite IH by done. f_equal.
  destruct Hc as [Hc | ->]; [|done].
  by rewrite allowed_name_class, bool_decide_eq_true_2.
Qed.

Lemma uint_digits_safe d : safe_name (NilEmpty.string_of_uint d).
Proof.
  unfold safe_name.
  induction d; simpl; [done|..];
    (constructor; [apply allowed_safe; reflexivity | done]).
Qed.

Lemma dec_safe z : safe_name (dec z).
Proof.
  unfold dec. destruct (Z.to_int z) as [d|d]; simpl.
  - destruct d; try apply uint_digits_safe.
    constructor; [apply allowed_safe; reflexivity | constructor].
  - constructor; [apply allowed_safe; reflexivity|].
    destruct d; try apply uint_digits_safe.
    constructor; [apply allowed_safe; reflexivity | constructor].
Qed.

Lemma to_hex_safe bs : safe_name (to_hex bs).
Proof.
  induction bs as [|b bs IH]; [constructor|].
  change (to_hex (b :: bs)) with (hex_byte b +:+ to_hex bs).
  apply safe_name_app; [|done].
  destruct b; repeat constructor; apply allowed_safe; reflexivity.
Qed.

Lemma string_app_length a b :
  String.length (a +:+ b) = (String.length a + String.length b)%nat.
Proof. induction a as [|c a IH]; simpl; [done|]. by rewrite IH. Qed.

Lemma string_app_inv_length a a' b b' :
  String.length a = String.length a' ->
  a +:+ b = a' +:+ b' -> a = a' /\ b = b'.
Proof.
  revert a'. induction a as [|c a IH]; intros [|c' a']; simpl; try done.
  intros [= Hlen] [= -> Heq]. destruct (IH _ Hlen Heq) as [-> ->]. done.
Qed.

(** A string without dashes is cut off at the first dash that follows. *)
Lemma string_app_inv_dash a a' b b' :
  Forall (fun c => c <> "-"%char) (list_ascii_of_string a) ->
  Forall (fun c => c <> "-"%char) (list_ascii_of_string a') ->
  a +:+ "-" +:+ b = a' +:+ "-" +:+ b' -> a = a' /\ b = b'.
Proof.
  revert a'. induction a as [|c a IH]; intros [|c' a']; cbn; intros Ha Ha' Heq.
  - injection Heq as Hb. by subst.
  - injection Heq as Hc _. apply Forall_cons in Ha' as [Hne _]. by subst.
  - injection Heq as Hc _. apply Forall_cons in Ha as [Hne _]. by subst.
  - injection Heq as Hc Heq. subst c'.
    apply Forall_cons in Ha as [_ Ha]. apply Forall_cons in Ha' as [_ Ha'].
    destruct (IH _ Ha Ha' Heq) as [Ha0 Hb0]. by subst.
Qed.

Lemma uint_no_dash d :
  Forall (fun c => c <> "-"%char) (list_ascii_of_string (NilEmpty.string_of_uint d)).
Proof. induction d; simpl; constructor; done. Qed.

Lemma dec_no_dash z :
  0 <= z -> Forall (fun c => c <> "-"%char) (list_ascii_of_string (dec z)).
Proof.
  intros Hz. unfold dec. destruct z as [|p|p]; [by repeat constructor| |lia].
  simpl. destruct (Pos.to_uint p); try apply uint_no_dash. by repeat constructor.
Qed.

Lemma dec_inj z z' : dec z = dec z' -> z = z'.
Proof.
  intros Heq. apply DecimalZ.to_int_inj.
  assert (forall x, NilZero.int_of_string (dec x) = Some (Z.to_int x)) as Hparse.
  { intros x. apply NilZero.isi; destruct x; simpl; try done;
      intros [= Hnil]; by apply DecimalPos.Unsigned.to_uint_nonnil in Hnil. }
  pose proof (Hparse z) as Hz. rewrite Heq, Hparse in Hz. by injection Hz.
Qed.

Lemma hex_byte_inj b b' : hex_byte b = hex_byte b' -> b = b'.
Proof.
  pose (value := fun c : ascii =>
          let n := N_of_ascii c in if (n <? 58)%N then (n - 48)%N else (n - 87)%N).
  pose (back := fun s : string =>
          match s with
          | String hi (String lo _) => Byte.of_N (16 * value hi + value lo)
          | _ => None
          end).
  assert (forall x, back (hex_byte x) = Some x) as Hback by (by intros []).
  intros Heq. pose proof (Hback b) as Hb. rewrite Heq, Hback in Hb. by injection Hb.
Qed.

Lemma to_hex_inj bs : forall bs', to_hex bs = to_hex bs' -> bs = bs'.
Proof.
  induction bs as [|b bs IH]; intros [|b' bs']; try done.
  change (to_hex (b :: bs)) with (hex_byte b +:+ to_hex bs).
  change (to_hex (b' :: bs')) with (hex_byte b' +:+ to_hex bs').
  intros Heq. apply string_app_inv_length in Heq as [Hb Hbs]; [|done].
  apply hex_byte_inj in Hb as ->. by rewrite (IH _ Hbs).
Qed.

Lemma sanitizeFileName_run W fileName s :
  sanitizeFileName W fileName s
  = match replace_disallowed fileName with
    | EmptyString =>
        (Normal ("upload_" +:+ dec (clock W (trace s))), record DateNow s)
    | sanitized => (Normal sanitized, s)
    end.
Proof. unfold sanitizeFileName. by destruct (replace_disallowed fileName). Qed.

Lemma replace_disallowed_empty fileName :
  replace_disallowed fileName = "" <-> fileName = "".
Proof. by destruct fileName. Qed.

Lemma generateUniqueFileName_run W fileName s :
  exists sanitized s',
    generateUniqueFileName W fileName s
    = (Normal (dec (clock W (trace s)) +:+ "-"
               +:+ to_hex (map (entropy W (trace s ++ [DateNow])) (seq 0 16))
               +:+ "-" +:+ sanitized), s')
    /\ fst (sanitizeFileName W fileName (record (RandomBytes 16) (record DateNow s)))
       = Normal sanitized.
Proof.
  unfold generateUniqueFileName, bind, Date_now, crypto_randomBytes, external. simpl.
  rewrite sanitizeFileName_run.
  destruct (replace_disallowed fileName); simpl; eauto.
Qed.

Lemma sanitizeFileName_facts W fileName s :
  exists out s',
    sanitizeFileName W fileName s = (Normal out, s')
    /\ out <> ""
    /\ safe_name out
    /\ (fileName <> "" ->
        s' = s /\ out = replace_disallowed fileName
        /\ String.length out = String.length fileName)
    /\ (fileName = "" ->
        out = "upload_" +:+ dec (clock W (trace s)) /\ trace s' = trace s ++ [DateNow])
    /\ sanitizeFileName W out s' = (Normal out, s').
Proof.
  rewrite sanitizeFileName_run.
  destruct (replace_disallowed fileName) as [|c rest] eqn:Hrep.
  - apply replace_disallowed_empty in Hrep as ->.
    eexists _, _. split; [reflexivity|]. split_and!; try done.
    + apply (safe_name_app "upload_"); [|apply dec_safe].
      repeat constructor; first [ by right | apply allowed_safe; reflexivity ].
    + rewrite sanitizeFileName_run. rewrite replace_disallowed_fixed.
      * done.
      * apply (safe_name_app "upload_"); [|apply dec_safe].
        repeat constructor; first [ by right | apply allowed_safe; reflexivity ].
  - eexists _, _. split; [reflexivity|]. split_and!; try done.
    + rewrite <- Hrep. apply replace_disallowed_safe.
    + intros _. split_and!; try done.
      rewrite <- Hrep. apply replace_disallowed_length.
    + intros ->. done.
    + rewrite sanitizeFileName_run, replace_disallowed_fixed; [done|].
      rewrite <- Hrep. apply replace_disallowed_safe.
Qed.

(** X1: [sanitizeFileName] never returns an empty name, and the name it
    returns holds only characters of [[A-Za-z0-9.-]] and underscores.  For
    a non-empty input it reads no clock and keeps the length; for the
    empty input it reads the clock once.  Sanitizing its result again
    changes nothing. *)
Theorem sanitizeFileName_safe_and_idempotent W fileName s :
  exists out s',
    sanitizeFileName W fileName s = (Normal out, s')
    /\ out <> ""
    /\ safe_name out
    /\ (fileName <> "" ->
        s' = s /\ out = replace_disallowed fileName
        /\ String.length out = String.length fileName)
    /\ (fileName = "" ->
        out = "upload_" +:+ dec (clock W (trace s)) /\ trace s' = trace s ++ [DateNow])
    /\ sanitizeFileName W out s' = (Normal out, s').
Proof. apply sanitizeFileName_facts. Qed.

(** X2: a stored name holds only characters of [[A-Za-z0-9.-]] and
    underscores, whatever the original name, the clock and the random
    bytes are, and it is at least 36 characters long. *)
Theorem generateUniqueFileName_safe W fileName s :
  exists name s',
    generateUniqueFileName W fileName s = (Normal name, s')
    /\ safe_name name
    /\ (36 <= String.length name)%nat.
Proof.
  destruct (generateUniqueFileName_run W fileName s) as (sanitized & s' & Hrun & Hsan).
  destruct (sanitizeFileName_facts W fileName
              (record (RandomBytes 16) (record DateNow s)))
    as (out & s2 & Hout & Hne & Hsafe & _).
  rewrite Hout in Hsan. injection Hsan as <-.
  eexists _, s'. split; [exact Hrun|]. split.
  - assert (safe_name "-") as Hdash
      by (repeat constructor; apply allowed_safe; reflexivity).
    auto using safe_name_app, dec_safe, to_hex_safe.
  - rewrite !string_app_length, to_hex_length, length_map, length_seq. simpl.
    assert (1 <= String.length (dec (clock W (trace s))))%nat.
    { pose proof (dec_inj (clock W (trace s))) as _.
      unfold dec. destruct (Z.to_int _) as [[]|[]]; simpl; lia. }
    assert (1 <= String.length out)%nat by (destruct out; [done | simpl; lia]).
    lia.
Qed.

(** X3: two stored names generated at non-negative clock readings are
    equal only if the clock readings, the 16 random bytes and the
    sanitized names are equal: with the same millisecond and the same
    file, distinct random bytes give distinct stored names. *)
Theorem stored_names_equal_only_on_equal_parts W1 W2 file1 file2 s1 s2 :
  0 <= clock W1 (trace s1) ->
  0 <= clock W2 (trace s2) ->
  fst (generateUniqueFileName W1 file1 s1) = fst (generateUniqueFileName W2 file2 s2) ->
  clock W1 (trace s1) = clock W2 (trace s2)
  /\ map (entropy W1 (trace s1 ++ [DateNow])) (seq 0 16)
     = map (entropy W2 (trace s2 ++ [DateNow])) (seq 0 16)
  /\ fst (sanitizeFileName W1 file1 (record (RandomBytes 16) (record DateNow s1)))
     = fst (sanitizeFileName W2 file2 (record (RandomBytes 16) (record DateNow s2))).
Proof.
  intros Hpos1 Hpos2.
  destruct (generateUniqueFileName_run W1 file1 s1) as (san1 & s1' & -> & ->).
  destruct (generateUniqueFileName_run W2 file2 s2) as (san2 & s2' & -> & ->).
  cbn [fst].
  remember (map (entropy W1 (trace s1 ++ [DateNow])) (seq 0 16)) as bytes1 eqn:Hb1.
  remember (map (entropy W2 (trace s2 ++ [DateNow])) (seq 0 16)) as bytes2 eqn:Hb2.
  assert (String.length (to_hex bytes1) = String.length (to_hex bytes2)) as Hlen.
  { rewrite !to_hex_length, Hb1, Hb2. by rewrite !length_map, !length_seq. }
  remember (to_hex bytes1) as hex1 eqn:Hh1.
  remember (to_hex bytes2) as hex2 eqn:Hh2.
  intros Heq. injection Heq as Heq.
  apply string_app_inv_dash in Heq as [Hclock Heq]; try by apply dec_no_dash.
  apply string_app_inv_length in Heq as [Hhex Heq]; [|done].
  apply (string_app_inv_length "-" "-") in Heq as [_ Hsan]; [|done].
  split_and!.
  - by apply dec_inj.
  - apply to_hex_inj. congruence.
  - by rewrite Hsan.
Qed.

Lemma stored_names_equal_only_on_equal_parts_witness :
  let s := Demo.start in
  0 <= clock Demo.world (trace s)
  /\ fst (generateUniqueFileName Demo.world "a?b" s)
     = fst (generateUniqueFileName Demo.world "a*b" s)
  /\ fst (sanitizeFileName Demo.world "a?b" (record (RandomBytes 16) (record DateNow s)))
     = fst (sanitizeFileName Demo.world "a*b" (record (RandomBytes 16) (record DateNow s))).
Proof.
  intros s.
  assert (0 <= clock Demo.world (trace s)) as Hpos by (vm_compute; discriminate).
  assert (fst (generateUniqueFileName Demo.world "a?b" s)
          = fst (generateUniqueFileName Demo.world "a*b" s)) as Hsame
    by (vm_compute; reflexivity).
  split; [exact Hpos|]. split; [exact Hsame|].
  exact (proj2 (proj2 (stored_names_equal_only_on_equal_parts
                         Demo.world Demo.world "a?b" "a*b" s s Hpos Hpos Hsame))).
Defined.

(** ** The transfer of one file, case by case *)

Section TransferFacts.

Variable W : World.
Variable fm : Message.

Lemma processFile_transfer file s l :
  exists o s',
    processFile W fm file (s, l) = (Normal tt, (s', collect l [o]))
    /\ transfer W fm file s o s'.
Proof.
  destruct (Z.ltb_spec MAX_FILE_SIZE (file_size file)) as [Hbig | Hsmall].
  { exists (Failed (file_name file)), s. split; [|by constructor].
    apply processFile_oversized. by apply Z.ltb_lt. }
  assert (forall A (x y : A), (if MAX_FILE_SIZE <? file_size file then x else y) = y)
    as Hif by (intros; by rewrite (proj2 (Z.ltb_ge _ _) Hsmall)).
  unfold processFile. rewrite Hif.
  rewrite try_catch_bind. unfold lift at 1, node_fetch, external. cbn [fst snd].
  destruct (fetch W _ _ _) as [response|e] eqn:Hfetch.
  2:{ eexists (Failed _), _. split; [|by eapply transfer_unreachable].
      unfold collect; simpl. by rewrite app_nil_r. }
  destruct (response_ok response) eqn:Hok; cbn [negb].
  2:{ eexists (Failed _), _. split; [|by eapply transfer_not_ok].
      unfold collect; simpl. by rewrite app_nil_r. }
  rewrite try_catch_bind. unfold await at 1.
  destruct (response_buffer response) as [buffer|e] eqn:Hbuf.
  2:{ eexists (Failed _), _. split; [|by eapply transfer_truncated].
      unfold collect; simpl. by rewrite app_nil_r. }
  rewrite try_catch_bind.
  destruct (returns_run _ (record (Fetch (file_url_private file)
                                     ("Bearer " +:+ SLACK_BOT_TOKEN W)) s)
              (generateUniqueFileName_returns W (file_name file)))
    as (name & s2 & Hname).
  rewrite (lift_run _ _ _ _ _ Hname).
  rewrite try_catch_bind. unfold lift at 1, call_uploadLimit. cbn [fst snd].
  destruct (uploadLimit s2) as [capacity|] eqn:Hlimit.
  2:{ eexists (Failed _), _. split.
      - unfold collect; simpl. by rewrite app_nil_r.
      - eapply transfer_downloaded; eauto. by constructor. }
  unfold storage_uploadToStorage, external.
  destruct (uploadToStorage W _ _ _ _ _) as [[|]|e] eqn:Hup; cbn [negb].
  - eexists (Succeeded _), _. split.
    + unfold collect; simpl. by rewrite app_nil_r.
    + eapply transfer_downloaded; eauto. by eapply store_done.
  - eexists (Failed _), _. split.
    + unfold collect; simpl. by rewrite app_nil_r.
    + eapply transfer_downloaded; eauto. by eapply store_refused.
  - eexists (Failed _), _. split.
    + unfold collect; simpl. by rewrite app_nil_r.
    + eapply transfer_downloaded; eauto. by eapply store_throws.
Qed.

Lemma for_of_batch files : forall s l,
  exists os s',
    for_of files (processFile W fm) (s, l) = (Normal tt, (s', collect l os))
    /\ batch W fm files s os s'.
Proof.
  induction files as [|file files IH]; intros s l.
  - exists [], s. split; [|constructor]. unfold collect. simpl.
    rewrite !app_nil_r. by destruct l.
  - destruct (processFile_transfer file s l) as (o & s1 & Hrun & Ho).
    destruct (IH s1 (collect l [o])) as (os & s2 & Hrest & Hos).
    exists (o :: os), s2. simpl. unfold bind at 1. rewrite Hrun, Hrest.
    rewrite collect_app. split; [done|]. by econstructor.
Qed.

(** [processFiles] logs, runs the batch, and logs the counts. *)
Lemma processFiles_batch s :
  exists os s2,
    processFiles W fm s
    = (Normal {| uploadedFiles := successes os; failedFiles := failures os |},
       record (Log LInfo ("Completed: " +:+ dec (Z.of_nat (length (successes os)))
                          +:+ " ok, " +:+ dec (Z.of_nat (length (failures os)))
                          +:+ " failed") NoArg) s2)
    /\ batch W fm (default [] (msg_files fm))
         (record (Log LInfo ("Processing "
                             +:+ dec (Z.of_nat (length (default [] (msg_files fm))))
                             +:+ " files") NoArg) s)
         os s2.
Proof.
  unfold processFiles, with_locals.
  set (files := default [] (msg_files fm)).
  set (l0 := {| uploadedFiles := []; failedFiles := [] |}).
  unfold bind at 1. unfold lift at 1, logger at 1. cbn [fst snd external].
  set (s1 := record _ s).
  destruct (for_of_batch files s1 l0) as (os & s2 & Hrun & Hos).
  unfold bind at 1. rewrite Hrun.
  exists os, s2. split; [|done]. reflexivity.
Qed.

End TransferFacts.

Lemma uploads_app t1 t2 : uploads (t1 ++ t2) = uploads t1 ++ uploads t2.
Proof. apply omap_app. Qed.

Lemma uploads_none t : Forall (fun ev => is_upload ev = false) t -> uploads t = [].
Proof.
  induction 1 as [|ev t Hev _ IH]; [done|].
  destruct ev; try done. all: exact IH.
Qed.

Section TransferTraces.

Variable W : World.
Variable fm : Message.

Lemma generateUniqueFileName_quiet fileName s name s2 :
  generateUniqueFileName W fileName s = (Normal name, s2) ->
  uploadLimit s2 = uploadLimit s
  /\ exists t, trace s2 = trace s ++ t /\ uploads t = [] /\ fetched t = [].
Proof.
  intros Hrun.
  destruct (generateUniqueFileName_emits W fileName _ _ _ Hrun) as (t & Ht & Hf & _ & Hul).
  unfold store_of, stateful_store in *. split; [done|]. exists t. split_and!; [done|..].
  - apply uploads_none. eapply Forall_impl; [exact Hf|]. by intros ev [-> | ->].
  - apply fetched_none. eapply Forall_impl; [exact Hf|]. by intros ev [-> | ->].
Qed.

Lemma upload_step_trace file buffer name s2 o s' :
  upload_step W fm file buffer name s2 o s' ->
  uploadLimit s' = uploadLimit s2
  /\ exists t,
       trace s' = trace s2 ++ t
       /\ fetched t = []
       /\ (uploadLimit s2 = None -> uploads t = [] /\ o = Failed (file_name file))
       /\ match o with
          | Succeeded u =>
              uploads t = [stored_upload fm file buffer u]
              /\ u = {| up_name := name;
                        up_url := generateFileUrl W ("s/" +:+ msg_user fm) name;
                        up_contentType := file_mimetype file |}
              /\ uploadToStorage W (trace s2) ("s/" +:+ msg_user fm) name buffer
                   (file_mimetype file) = Normal true
          | Failed failed =>
              failed = file_name file
              /\ (uploads t = []
                  \/ uploads t = [("s/" +:+ msg_user fm, name, buffer, file_mimetype file)]
                     /\ uploadToStorage W (trace s2) ("s/" +:+ msg_user fm) name buffer
                          (file_mimetype file) <> Normal true)
          end.
Proof.
  destruct 1 as [Hnone | capacity e Hsome Hup | capacity Hsome Hup | capacity Hsome Hup].
  - split; [done|].
    exists [Log LError ("Failed: " +:+ file_name file +:+ " - "
                        +:+ "uploadLimit is not a function") NoArg].
    split; [done|]. split; [done|]. split; [done|]. split; [done | by left].
  - split; [done|]. eexists [_; _]. split; [unfold logged_failure; by rewrite !record_trace, <- app_assoc|].
    split; [done|]. split; [congruence|]. split; [done|].
    right. split; [done | congruence].
  - split; [done|]. eexists [_; _]. split; [unfold logged_failure; by rewrite !record_trace, <- app_assoc|].
    split; [done|]. split; [congruence|]. split; [done|].
    right. split; [done | congruence].
  - split; [done|]. eexists [_]. split; [done|].
    split; [done|]. split; [congruence|]. by split_and!.
Qed.

(** One transfer: what it changes and what it calls. *)
Lemma transfer_trace file s o s' :
  transfer W fm file s o s' ->
  uploadLimit s' = uploadLimit s
  /\ exists t,
       trace s' = trace s ++ t
       /\ (length (uploads t) <= length (fetched t) <= 1)%nat
       /\ Forall (fun up => up.1.1.1 = "s/" +:+ msg_user fm) (uploads t)
       /\ (uploadLimit s = None -> uploads t = [] /\ o = Failed (file_name file))
       /\ (MAX_FILE_SIZE < file_size file -> t = [] /\ o = Failed (file_name file))
       /\ match o with
          | Succeeded u =>
              file_size file <= MAX_FILE_SIZE
              /\ up_contentType u = file_mimetype file
              /\ up_url u = generateFileUrl W ("s/" +:+ msg_user fm) (up_name u)
              /\ exists response buffer,
                   fetch W (trace s) (file_url_private file)
                     ("Bearer " +:+ SLACK_BOT_TOKEN W) = Normal response
                   /\ response_ok response = true
                   /\ response_buffer response = Normal buffer
                   /\ uploads t = [stored_upload fm file buffer u]
          | Failed failed => failed = file_name file
          end.
Proof.
  destruct 1 as [Hbig | e Hsmall Hfetch | response Hsmall Hfetch Hok
                 | response e Hsmall Hfetch Hok Hbuf
                 | response buffer name s2 o s' Hsmall Hfetch Hok Hbuf Hname Hstore].
  - split; [done|]. exists []. rewrite app_nil_r.
    split; [done|]. split; [simpl; lia|]. by split_and!.
  - split; [done|]. eexists [_; _].
    split; [unfold logged_failure; by rewrite !record_trace, <- app_assoc|].
    split; [simpl; lia|]. split_and!; try done. intros; lia.
  - split; [done|]. eexists [_; _].
    split; [unfold logged_failure; by rewrite !record_trace, <- app_assoc|].
    split; [simpl; lia|]. split_and!; try done. intros; lia.
  - split; [done|]. eexists [_; _].
    split; [unfold logged_failure; by rewrite !record_trace, <- app_assoc|].
    split; [simpl; lia|]. split_and!; try done. intros; lia.
  - apply generateUniqueFileName_quiet in Hname as (Hul2 & tn & Htn & Hun & Hfn).
    apply upload_step_trace in Hstore as (Hul' & tu & Htu & Hfu & Hnone & Ho).
    simpl in Hul2. split; [congruence|].
    exists (Fetch (file_url_private file) ("Bearer " +:+ SLACK_BOT_TOKEN W) :: tn ++ tu).
    split. { rewrite Htu, Htn, record_trace. by rewrite <- !app_assoc. }
    change (?x :: tn ++ tu) with ([x] ++ tn ++ tu).
    rewrite !uploads_app, !fetched_app, Hun, Hfn, Hfu.
    change (uploads [Fetch _ _]) with (@nil (string * string * list Byte.byte * string)).
    change (fetched [Fetch ?u _]) with [u].
    rewrite !app_nil_l, !app_nil_r.
    split.
    { destruct o as [u|failed].
      - destruct Ho as (-> & _). simpl. lia.
      - destruct Ho as (_ & [-> | [-> _]]); simpl; lia. }
    split.
    { destruct o as [u|failed].
      - destruct Ho as (-> & _). by repeat constructor.
      - destruct Ho as (_ & [-> | [-> _]]); by repeat constructor. }
    split. { intros Hnolimit. apply Hnone. congruence. }
    split. { intros; lia. }
    destruct o as [u|failed]; [|by destruct Ho].
    destruct Ho as (Hups & -> & _). split_and!; try done.
    exists response, buffer. by split_and!.
Qed.

End TransferTraces.

Section BatchTraces.

Variable W : World.
Variable fm : Message.

Lemma batch_accounting files s os s' :
  batch W fm files s os s' ->
  uploadLimit s' = uploadLimit s
  /\ exists t,
       trace s' = trace s ++ t
       /\ (length (uploads t) <= length (fetched t))%nat
       /\ Forall (fun up => up.1.1.1 = "s/" +:+ msg_user fm) (uploads t)
       /\ map up_name (successes os) `sublist_of` map (fun up => up.1.1.2) (uploads t).
Proof.
  induction 1 as [s | file files s o s1 os s2 Hstep _ IH].
  - split; [done|]. exists []. rewrite app_nil_r. by split_and!.
  - destruct IH as (Hul & t2 & Ht2 & Hlen2 & Hdir2 & Hsub2).
    apply transfer_trace in Hstep
      as (Hul1 & t1 & Ht1 & [Hlen1 _] & Hdir1 & _ & _ & Ho).
    split; [congruence|]. exists (t1 ++ t2).
    rewrite uploads_app, fetched_app, !length_app, map_app, Forall_app.
    split_and!; try done; [by rewrite Ht2, Ht1, app_assoc | lia |].
    destruct o as [u|failed]; simpl.
    + destruct Ho as (_ & _ & _ & response & buffer & _ & _ & _ & ->). simpl.
      by apply sublist_skip.
    + fold (successes os). by apply sublist_inserts_l.
Qed.

Lemma batch_unscheduled files s os s' :
  batch W fm files s os s' ->
  uploadLimit s = None ->
  successes os = [] /\ failures os = map file_name files
  /\ exists t, trace s' = trace s ++ t /\ uploads t = [].
Proof.
  induction 1 as [s | file files s o s1 os s2 Hstep _ IH]; intros Hnone.
  - split_and!; try done. exists []. by rewrite app_nil_r.
  - apply transfer_trace in Hstep as (Hul1 & t1 & Ht1 & _ & _ & Hno & _).
    destruct (Hno Hnone) as [Hup1 ->].
    destruct IH as (Hs & Hf & t2 & Ht2 & Hup2); [congruence|].
    split_and!.
    + exact Hs.
    + simpl. fold (failures os). by rewrite Hf.
    + exists (t1 ++ t2). rewrite uploads_app, Hup1, Hup2.
      split; [by rewrite Ht2, Ht1, app_assoc | done].
Qed.



End BatchTraces.

(** The two log entries of [processFiles] around the batch add neither a
    download nor an upload. *)
Lemma between_logs s s2 tb level1 text1 level2 text2 :
  trace s2 = trace (record (Log level1 text1 NoArg) s) ++ tb ->
  exists t,
    trace (record (Log level2 text2 NoArg) s2) = trace s ++ t
    /\ uploads t = uploads tb /\ fetched t = fetched tb.
Proof.
  intros Ht. exists ([Log level1 text1 NoArg] ++ tb ++ [Log level2 text2 NoArg]).
  split.
  - rewrite !record_trace, Ht, record_trace. by rewrite <- !app_assoc.
  - rewrite !uploads_app, !fetched_app. simpl. by rewrite !app_nil_r.
Qed.




(** X5: while the limiter is not initialized, [processFiles] stores
    nothing: every file ends in [failedFiles], in input order, and no
    upload is attempted, although the files within the size limit are
    still downloaded. *)
Theorem uninitialized_limiter_fails_every_file W ts user files s :
  let fm := {| msg_ts := ts; msg_user := user; msg_files := Some files |} in
  uploadLimit s = None ->
  exists r s' t,
    processFiles W fm s = (Normal r, s')
    /\ uploadedFiles r = []
    /\ failedFiles r = map file_name files
    /\ trace s' = trace s ++ t
    /\ uploads t = []
    /\ fetched t = map file_url_private
                     (filter (fun f => file_size f <= MAX_FILE_SIZE) files).
Proof.
  intros fm Hnone.
  destruct (processFiles_batch W fm s) as (os & s2 & Hrun & Hbatch).
  destruct (processFiles_run W fm s) as (os' & s' & t' & Hrun' & _ & Ht' & Hf').
  destruct (batch_unscheduled _ _ _ _ _ _ Hbatch Hnone) as (Hs & Hf & tb & Htb & Hup).
  destruct (between_logs _ _ _ _ _ LInfo
              ("Completed: " +:+ dec (Z.of_nat (length (successes os)))
               +:+ " ok, " +:+ dec (Z.of_nat (length (failures os)))
               +:+ " failed") Htb) as (t & Ht & Hut & _).
  eexists _, _, t. split; [exact Hrun|]. simpl. split_and!; try done.
  - congruence.
  - rewrite Hrun in Hrun'. injection Hrun' as _ _ <-.
    rewrite Ht in Ht'. apply app_inv_head in Ht' as ->.
    rewrite Hf'. f_equal. apply list_filter_iff. intros f. unfold oversized.
    by rewrite Z.ltb_ge.
Qed.

Lemma uninitialized_limiter_fails_every_file_witness :
  uploadLimit loaded = None
  /\ exists r s' t,
       processFiles Demo.world Demo.file_message loaded = (Normal r, s')
       /\ uploadedFiles r = []
       /\ failedFiles r = ["a b.png"; "B.bin"; ""]
       /\ trace s' = trace loaded ++ t
       /\ uploads t = []
       /\ fetched t = ["https://files/A"; "https://files/C"].
Proof.
  split; [reflexivity|].
  exact (uninitialized_limiter_fails_every_file
           Demo.world "1700000000.000100" "U1" [Demo.fileA; Demo.fileB; Demo.fileC]
           loaded eq_refl).
Defined.

(** X6: in a batch, uploads go only to the namespace [s/<user>] of the
    owner of the message, there are never more uploads than downloads,
    and every name reported in [uploadedFiles] is the name of an upload
    that was made, in the same order. *)
Theorem processFiles_uploads_accounted W ts user files s :
  let fm := {| msg_ts := ts; msg_user := user; msg_files := Some files |} in
  exists r s' t,
    processFiles W fm s = (Normal r, s')
    /\ trace s' = trace s ++ t
    /\ (length (uploads t) <= length (fetched t))%nat
    /\ Forall (fun up => up.1.1.1 = "s/" +:+ user) (uploads t)
    /\ map up_name (uploadedFiles r) `sublist_of` map (fun up => up.1.1.2) (uploads t).
Proof.
  intros fm.
  destruct (processFiles_batch W fm s) as (os & s2 & Hrun & Hbatch).
  destruct (batch_accounting _ _ _ _ _ _ Hbatch) as (_ & tb & Htb & Hlen & Hdir & Hsub).
  destruct (between_logs _ _ _ _ _ LInfo
              ("Completed: " +:+ dec (Z.of_nat (length (successes os)))
               +:+ " ok, " +:+ dec (Z.of_nat (length (failures os)))
               +:+ " failed") Htb) as (t & Ht & Hut & Hft).
  eexists _, _, t. split; [exact Hrun|]. rewrite Hut, Hft. by split_and!.
Qed.

(** X7: a file is reported as stored only if its download answered [ok]
    with a body, and then exactly the downloaded bytes were uploaded, once,
    under the reported name, in the namespace of the owner and with the
    declared type of the file. *)
Theorem stored_file_holds_downloaded_bytes W fm file s l :
  exists o s' t,
    processFile W fm file (s, l) = (Normal tt, (s', collect l [o]))
    /\ trace s' = trace s ++ t
    /\ match o with
       | Failed name => name = file_name file
       | Succeeded u =>
           exists response buffer,
             fetch W (trace s) (file_url_private file)
               ("Bearer " +:+ SLACK_BOT_TOKEN W) = Normal response
             /\ response_ok response = true
             /\ response_buffer response = Normal buffer
             /\ uploads t
                = [("s/" +:+ msg_user fm, up_name u, buffer, file_mimetype file)]
             /\ fetched t = [file_url_private file]
       end.
Proof.
  destruct (processFile_transfer W fm file s l) as (o & s' & Hrun & Hstep).
  destruct (processFile_step W fm file s l) as (o' & s'' & t' & Hrun' & _ & Ht' & Hf').
  apply transfer_trace in Hstep as (_ & t & Ht & _ & _ & _ & _ & Ho).
  exists o, s', t. split; [exact Hrun|]. split; [exact Ht|].
  destruct o as [u|name]; [|done].
  destruct Ho as (Hsmall & _ & _ & response & buffer & Hfetch & Hok & Hbuf & Hup).
  exists response, buffer. split_and!; try done.
  rewrite Hrun in Hrun'. injection Hrun' as <- _.
  rewrite Ht in Ht'. apply app_inv_head in Ht' as ->.
  rewrite Hf'. unfold oversized. by rewrite (proj2 (Z.ltb_ge _ _) Hsmall).
Qed.

(** ** More on the entry point *)

Lemma string_app_assoc a b c : (a +:+ b) +:+ c = a +:+ b +:+ c.
Proof.
  induction a as [|x a IH]; [done|].
  change (String x ((a +:+ b) +:+ c) = String x (a +:+ b +:+ c)). by rewrite IH.
Qed.

Lemma string_app_nil_r a : a +:+ "" = a.
Proof.
  induction a as [|x a IH]; [done|].
  change (String x (a +:+ "") = String x a). by rewrite IH.
Qed.

Lemma sendResultsMessage_run W channelId fm result s :
  sendResultsMessage W channelId fm (uploadedFiles result) (failedFiles result) s
  = (chat_postMessage W (trace s) channelId (msg_ts fm) (summary fm result),
     record (ChatPostMessage channelId (msg_ts fm) (summary fm result)) s).
Proof.
  unfold sendResultsMessage, client_chat_postMessage, external, summary.
  destruct (uploadedFiles result) as [|u [|u' us]];
    destruct (failedFiles result) as [|f fs]; cbn [length Nat.ltb Nat.leb Nat.eqb];
    rewrite ?string_app_assoc, ?string_app_nil_r; reflexivity.
Qed.

Lemma reports_app t1 t2 : reports (t1 ++ t2) = reports t1 ++ reports t2.
Proof. apply omap_app. Qed.

Lemma added_app t1 t2 : added (t1 ++ t2) = added t1 ++ added t2.
Proof. apply omap_app. Qed.

Lemma removed_app t1 t2 : removed (t1 ++ t2) = removed t1 ++ removed t2.
Proof. apply omap_app. Qed.

Lemma reports_none t : Forall (fun ev => is_report ev = false) t -> reports t = [].
Proof.
  induction 1 as [|ev t Hev _ IH]; [done|].
  destruct ev; try done. all: exact IH.
Qed.

Lemma markers_none t :
  Forall (fun ev => is_marker ev = false) t -> added t = [] /\ removed t = [].
Proof.
  induction 1 as [|ev t Hev _ IH]; [done|].
  destruct ev; try done. all: exact IH.
Qed.

Section AdmittedRuns.

Variable W : World.
Variable event : SlackEvent.
Variable fm : Message.

Lemma addProcessingReaction_run s :
  exists s3 t,
    addProcessingReaction W event fm s = (Normal tt, s3)
    /\ trace s3 = trace s ++ t
    /\ added t = ["beachball"] /\ removed t = [] /\ reports t = [].
Proof.
  unfold addProcessingReaction, try_catch, client_reactions_add, external, logger.
  destruct (reactions_add W _ _ _ _) as [[]|e].
  - eexists _, [_]. split; [reflexivity|]. split; [reflexivity|]. done.
  - eexists _, [_; _]. split; [reflexivity|]. split; [rewrite !record_trace; by rewrite <- ?app_assoc | done].
Qed.

Lemma processFiles_silent s result s4 :
  processFiles W fm s = (Normal result, s4) ->
  exists t, trace s4 = trace s ++ t
            /\ added t = [] /\ removed t = [] /\ reports t = [].
Proof.
  intros Hrun.
  destruct (processFiles_emits W fm _ _ _ Hrun) as (t & Ht & Hf & _).
  exists t. split; [done|].
  destruct (markers_none t) as [-> ->].
  { eapply Forall_impl; [exact Hf|]. by intros ev (_ & ? & _). }
  split_and!; try done. apply reports_none.
  eapply Forall_impl; [exact Hf|]. by intros ev (? & _).
Qed.

Lemma updateReactions_run success s s' :
  updateReactions W event fm success s = (Normal tt, s') ->
  exists t,
    trace s' = trace s ++ t
    /\ removed t = ["beachball"]
    /\ reports t = []
    /\ match reactions_remove W (trace s) "beachball" (msg_ts fm) (channel_id event) with
       | Normal _ => added t = [if success then "white_check_mark" else "x"]
       | Throw _ => added t = []
       end.
Proof.
  unfold updateReactions. rewrite try_catch_bind.
  unfold client_reactions_remove at 1, external at 1.
  destruct (reactions_remove W _ _ _ _) as [[]|e].
  - unfold try_catch, client_reactions_add, external, logger.
    destruct (reactions_add W _ _ _ _) as [[]|e]; intros [= <-].
    + eexists [_; _]. split; [rewrite !record_trace; by rewrite <- ?app_assoc | done].
    + eexists [_; _; _]. split; [rewrite !record_trace; by rewrite <- ?app_assoc | done].
  - unfold logger, external. intros [= <-].
    eexists [_; _]. split; [rewrite !record_trace; by rewrite <- ?app_assoc | done].
Qed.

Lemma handleError_run s cleanup s' :
  handleError W (channel_id event) (Some fm) true s = (cleanup, s') ->
  exists t, trace s' = trace s ++ t /\ reports t = [] /\ removed t = ["beachball"].
Proof.
  unfold handleError, bind, try_catch, client_reactions_remove, client_reactions_add,
    logger, external.
  destruct (reactions_remove W _ _ _ _) as [[]|e]; simpl.
  - destruct (reactions_add W _ _ _ _) as [[]|e']; intros [= <- <-].
    + eexists [_; _]. split; [rewrite ?record_trace; by rewrite <- ?app_assoc | done].
    + eexists [_; _; _]. split; [rewrite ?record_trace; by rewrite <- ?app_assoc | done].
  - destruct (data e) as [d|]; [|intros [= <- <-]; by eexists [_]].
    destruct (negb _); simpl;
      destruct (reactions_add W _ _ _ _) as [[]|e']; intros [= <- <-].
    + eexists [_; _; _]. split; [rewrite ?record_trace; by rewrite <- ?app_assoc | done].
    + eexists [_; _; _; _]. split; [rewrite ?record_trace; by rewrite <- ?app_assoc | done].
    + eexists [_; _]. split; [rewrite ?record_trace; by rewrite <- ?app_assoc | done].
    + eexists [_; _; _]. split; [rewrite ?record_trace; by rewrite <- ?app_assoc | done].
Qed.

(** The shape of the trace of an admitted run: the in-progress marker,
    the batch, one report, and the closing markers. *)
Lemma after_admission_trace s2 r s' :
  after_admission W event fm s2 r s' ->
  exists result s3 s4 t closing,
    processFiles W fm s3 = (Normal result, s4)
    /\ trace s' = trace s2 ++ t
    /\ reports t = [(channel_id event, msg_ts fm, summary fm result)]
    /\ removed t = ["beachball"]
    /\ added t = "beachball" :: closing
    /\ match r with
       | Normal _ =>
           chat_postMessage W (trace s4) (channel_id event) (msg_ts fm)
             (summary fm result) = Normal tt
           /\ match reactions_remove W
                      (trace (record (ChatPostMessage (channel_id event) (msg_ts fm)
                                        (summary fm result)) s4))
                      "beachball" (msg_ts fm) (channel_id event) with
              | Normal _ =>
                  closing = [if (length (failedFiles result) =? 0)%nat
                             then "white_check_mark" else "x"]
              | Throw _ => closing = []
              end
       | Throw _ =>
           exists original,
             chat_postMessage W (trace s4) (channel_id event) (msg_ts fm)
               (summary fm result) = Throw original
       end.
Proof.
  intros (s3 & result & s4 & reported & s5 & Hadd & Hbatch & Hsend & Hend).
  exists result, s3, s4.
  destruct (addProcessingReaction_run (mark_processed (msg_ts fm) s2))
    as (s3' & t1 & Hadd' & Ht1 & Ha1 & Hr1 & Hp1).
  rewrite Hadd in Hadd'. injection Hadd' as <-.
  destruct (processFiles_silent _ _ _ Hbatch) as (t2 & Ht2 & Ha2 & Hr2 & Hp2).
  rewrite sendResultsMessage_run in Hsend. injection Hsend as Hreported <-.
  destruct reported as [[]|original].
  - destruct Hend as [-> Hupd].
    destruct (updateReactions_run _ _ _ Hupd) as (t4 & Ht4 & Hr4 & Hp4 & Ha4).
    exists (t1 ++ t2 ++ [ChatPostMessage (channel_id event) (msg_ts fm)
                           (summary fm result)] ++ t4), (added t4).
    split; [done|].
    split. { rewrite Ht4, record_trace, Ht2, Ht1. simpl. by rewrite <- !app_assoc. }
    rewrite !reports_app, !removed_app, !added_app, Ha1, Ha2, Hr1, Hr2, Hp1, Hp2, Hp4, Hr4.
    by split_and!.
  - destruct Hend as (cleanup & Hclean & ->).
    destruct (handleError_run _ _ _ Hclean) as (t4 & Ht4 & Hp4 & Hr4).
    exists (t1 ++ t2 ++ [ChatPostMessage (channel_id event) (msg_ts fm)
                           (summary fm result)]
            ++ [Log LError ("Upload failed: " +:+ message original) NoArg] ++ t4),
      (added t4).
    split; [done|].
    split. { rewrite Ht4, !record_trace, Ht2, Ht1. simpl. by rewrite <- !app_assoc. }
    rewrite !reports_app, !removed_app, !added_app, Ha1, Ha2, Hr1, Hr2, Hp1, Hp2, Hp4, Hr4.
    split_and!; try done.
    destruct cleanup; by exists original.
Qed.

End AdmittedRuns.

Lemma idle_reports t : Forall idle t -> reports t = [] /\ added t = [] /\ removed t = [].
Proof.
  intros Hidle. split.
  - apply reports_none. eapply Forall_impl; [exact Hidle|]. by intros ev (_ & ? & _).
  - apply markers_none. eapply Forall_impl; [exact Hidle|]. by intros ev (_ & _ & ?).
Qed.

(** An admitted run, from the store in which it was invoked. *)
Lemma admitted_run W event s fm s2 :
  too_old (clock W (trace s)) (event_ts event) = false ->
  findFileMessage W event (record DateNow s) = (Normal (Some fm), s2) ->
  processedMessages s !! msg_ts fm = None ->
  exists r s' result s3 s4 t closing,
    handleFileUpload W event s = (r, s')
    /\ processFiles W fm s3 = (Normal result, s4)
    /\ trace s' = trace s ++ t
    /\ reports t = [(channel_id event, msg_ts fm, summary fm result)]
    /\ removed t = ["beachball"]
    /\ added t = "beachball" :: closing
    /\ match r with
       | Normal _ =>
           chat_postMessage W (trace s4) (channel_id event) (msg_ts fm)
             (summary fm result) = Normal tt
           /\ match reactions_remove W
                      (trace (record (ChatPostMessage (channel_id event) (msg_ts fm)
                                        (summary fm result)) s4))
                      "beachball" (msg_ts fm) (channel_id event) with
              | Normal _ =>
                  closing = [if (length (failedFiles result) =? 0)%nat
                             then "white_check_mark" else "x"]
              | Throw _ => closing = []
              end
       | Throw _ =>
           exists original,
             chat_postMessage W (trace s4) (channel_id event) (msg_ts fm)
               (summary fm result) = Throw original
       end.
Proof.
  intros Hfresh Hfind Hnew.
  destruct (handleFileUpload W event s) as [r s'] eqn:Hrun.
  destruct (handleFileUpload_cases W event s r s' Hrun)
    as [(Hold & _) | (_ & found & s2' & Hfind' & Hcase)]; [congruence|].
  rewrite Hfind in Hfind'. injection Hfind' as <- <-.
  destruct (stopped_at_gate _ _ _ _ _ Hfind) as (Hpm & t0 & Ht0 & Hidle).
  destruct Hcase as [(Hin & _) | (_ & Hafter)].
  { rewrite Hpm, Hnew in Hin. by destruct Hin. }
  apply after_admission_trace in Hafter
    as (result & s3 & s4 & t & closing & Hbatch & Ht & Hp & Hr & Ha & Hend).
  destruct (idle_reports _ Hidle) as (Hp0 & Ha0 & Hr0).
  exists r, s', result, s3, s4, (t0 ++ t), closing.
  rewrite reports_app, removed_app, added_app, Hp0, Ha0, Hr0.
  split_and!; try done. by rewrite Ht, Ht0, app_assoc.
Qed.





(** X10: [handleFileUpload] rejects only when posting the report
    rejects: in a world where [chat.postMessage] answers, every run
    returns normally, whatever the lookups, the downloads, the uploads
    and the reactions do. *)
Theorem handleFileUpload_rejects_only_with_report W event s :
  (forall h channel thread text, chat_postMessage W h channel thread text = Normal tt) ->
  exists s', handleFileUpload W event s = (Normal tt, s').
Proof.
  intros Hpost.
  destruct (handleFileUpload W event s) as [r s'] eqn:Hrun.
  exists s'. f_equal.
  destruct (handleFileUpload_cases W event s r s' Hrun)
    as [(_ & -> & _) | (_ & found & s2 & Hfind & Hcase)]; [done|].
  destruct found as [fm|]; [|by destruct Hcase].
  destruct Hcase as [(_ & -> & _) | (_ & Hafter)]; [done|].
  apply after_admission_trace in Hafter
    as (result & s3 & s4 & t & closing & _ & _ & _ & _ & _ & Hend).
  destruct r as [[]|e]; [done|].
  destruct Hend as (original & Hthrown). by rewrite Hpost in Hthrown.
Qed.

Lemma handleFileUpload_rejects_only_with_report_witness :
  exists s', handleFileUpload Demo.no_beachball Demo.event Demo.start = (Normal tt, s').
Proof.
  refine (handleFileUpload_rejects_only_with_report Demo.no_beachball Demo.event
            Demo.start _).
  reflexivity.
Defined.

(** X11: a run of [handleFileUpload] never removes an entry of the ledger
    and never touches the limiter; it adds at most one entry, the
    timestamp of the message it resolved, and only if that timestamp was
    not in the ledger. *)
Theorem ledger_only_grows_by_one W event s :
  let s' := snd (handleFileUpload W event s) in
  processedMessages s ⊆ processedMessages s'
  /\ uploadLimit s' = uploadLimit s
  /\ (processedMessages s' = processedMessages s
      \/ exists ts, processedMessages s !! ts = None
                    /\ processedMessages s' = <[ts := true]> (processedMessages s)).
Proof.
  intros s'. subst s'.
  destruct (handleFileUpload W event s) as [r s'] eqn:Hrun. cbn [snd].
  split; [by eapply handleFileUpload_ledger_grows|].
  destruct (handleFileUpload_cases W event s r s' Hrun)
    as [(_ & _ & ->) | (_ & found & s2 & Hfind & Hcase)]; [split; [done | by left]|].
  destruct (findFileMessage_emits W event _ _ _ Hfind) as (t & _ & _ & Hpm & Hul).
  unfold store_of, stateful_store in *. simpl in Hpm, Hul.
  destruct found as [fm|].
  - destruct Hcase as [(_ & _ & ->) | (Hnone & Hafter)]; [split; [done | by left]|].
    apply after_admission_ledger in Hafter as (-> & -> & _).
    split; [done|]. right. exists (msg_ts fm). rewrite <- Hpm. by split.
  - destruct Hcase as [_ ->]. split; [done | by left].
Qed.

(** ** More on the resolution and the report *)

(** X12: [findFileMessage] never throws and leaves the ledger and the
    limiter alone.  It asks Slack about the file first; it returns a
    message after exactly one more call, the history lookup, and returns
    null after logging exactly one error, with at most that one more
    call. *)
Theorem findFileMessage_absorbs_failures W event s :
  exists found s' t,
    findFileMessage W event s = (Normal found, s')
    /\ trace s' = trace s ++ FilesInfo (file_id event) :: t
    /\ processedMessages s' = processedMessages s
    /\ uploadLimit s' = uploadLimit s
    /\ match found with
       | Some _ => exists ts, t = [ConversationsHistory (channel_id event) ts]
       | None =>
           exists e,
             t = [Log LError "Error finding file message:" (ErrArg e)]
             \/ exists ts,
                  t = [ConversationsHistory (channel_id event) ts;
                       Log LError "Error finding file message:" (ErrArg e)]
       end.
Proof.
  unfold findFileMessage. rewrite try_catch_bind.
  unfold client_files_info at 1, external at 1.
  destruct (files_info W _ _) as [[ok file]|e]; cbn [info_ok info_file].
  2:{ eexists None, _, [_]. split; [reflexivity|].
      split; [by rewrite !record_trace, <- app_assoc|]. split_and!; eauto. }
  destruct ok, file as [file|];
    try (eexists None, _, [_]; split; [reflexivity|];
         split; [by rewrite !record_trace, <- app_assoc|]; split_and!; eauto; fail).
  destruct (channelShare_of file (channel_id event)) as [[|share rest]|];
    try (eexists None, _, [_]; split; [reflexivity|];
         split; [by rewrite !record_trace, <- app_assoc|]; split_and!; eauto; fail).
  rewrite try_catch_bind.
  unfold client_conversations_history at 1, external at 1.
  destruct (conversations_history W _ _ _) as [[hok messages]|e];
    cbn [history_ok history_messages].
  2:{ eexists None, _, [_; _]. split; [reflexivity|].
      split; [by rewrite !record_trace, <- !app_assoc|]. split_and!; eauto. }
  destruct hok, messages as [|first more];
    try (eexists None, _, [_; _]; split; [reflexivity|];
         split; [by rewrite !record_trace, <- !app_assoc|]; split_and!; eauto; fail).
  eexists (Some first), _, [_]. split; [reflexivity|].
  split; [by rewrite !record_trace, <- !app_assoc|]. split_and!; eauto.
Qed.

(** X13: an empty list of public shares for the channel hides the
    private shares: the resolution then fails without a history lookup,
    even if the file is shared privately in the channel. *)
Theorem empty_public_share_hides_private W event s fileInfo file :
  files_info W (trace s) (file_id event) = Normal fileInfo ->
  info_ok fileInfo = true ->
  info_file fileInfo = Some file ->
  shared_in shares_public file (channel_id event) = Some [] ->
  findFileMessage W event s
  = (Normal None,
     record (Log LError "Error finding file message:"
               (ErrArg (Error "No share info found for this channel")))
            (record (FilesInfo (file_id event)) s)).
Proof.
  intros Hinfo Hok Hfile Hpublic. unfold findFileMessage. rewrite try_catch_bind.
  unfold client_files_info at 1, external at 1. rewrite Hinfo, Hok, Hfile.
  unfold channelShare_of. by rewrite Hpublic.
Qed.

Lemma empty_public_share_hides_private_witness :
  shared_in shares_private shadowed_file (channel_id Demo.event)
  = Some [ {| share_ts := "1700000000.000100" |} ]
  /\ findFileMessage shadowed_world Demo.event Demo.start
     = (Normal None,
        record (Log LError "Error finding file message:"
                  (ErrArg (Error "No share info found for this channel")))
               (record (FilesInfo (file_id Demo.event)) Demo.start)).
Proof.
  split; [vm_compute; reflexivity|].
  refine (empty_public_share_hides_private shadowed_world Demo.event Demo.start
            {| info_ok := true; info_file := Some shadowed_file |} shadowed_file
            _ _ _ _).
  - reflexivity.
  - reflexivity.
  - reflexivity.
  - vm_compute; reflexivity.
Defined.

(** X14: [sendResultsMessage] makes one call, [chat.postMessage] to the
    given channel in the thread of the message, and completes as that
    call does.  The text is the greeting alone when both lists are empty;
    it announces "your link" for exactly one stored file and "your
    links" for more, one line per file; a line naming the failed files
    follows only if there are any. *)
Theorem sendResultsMessage_posts_summary W channelId fm uploaded failed s :
  sendResultsMessage W channelId fm uploaded failed s
  = (chat_postMessage W (trace s) channelId (msg_ts fm)
       (summary fm {| uploadedFiles := uploaded; failedFiles := failed |}),
     record (ChatPostMessage channelId (msg_ts fm)
               (summary fm {| uploadedFiles := uploaded; failedFiles := failed |})) s).
Proof.
  exact (sendResultsMessage_run W channelId fm
           {| uploadedFiles := uploaded; failedFiles := failed |} s).
Qed.

Lemma processFiles_empty W fm s :
  default [] (msg_files fm) = [] ->
  processFiles W fm s
  = (Normal {| uploadedFiles := []; failedFiles := [] |},
     record (Log LInfo "Completed: 0 ok, 0 failed" NoArg)
            (record (Log LInfo "Processing 0 files" NoArg) s)).
Proof. intros Hnone. unfold processFiles. by rewrite Hnone. Qed.

(** X15: a message without files, its list absent or empty, is still
    admitted and reported: the batch makes no call besides its two log
    entries, and the one report is the bare greeting. *)
Theorem message_without_files_gets_bare_greeting W event s fm s2 :
  too_old (clock W (trace s)) (event_ts event) = false ->
  findFileMessage W event (record DateNow s) = (Normal (Some fm), s2) ->
  processedMessages s !! msg_ts fm = None ->
  default [] (msg_files fm) = [] ->
  (forall s3,
      processFiles W fm s3
      = (Normal {| uploadedFiles := []; failedFiles := [] |},
         record (Log LInfo "Completed: 0 ok, 0 failed" NoArg)
                (record (Log LInfo "Processing 0 files" NoArg) s3)))
  /\ exists r s' t,
       handleFileUpload W event s = (r, s')
       /\ trace s' = trace s ++ t
       /\ processedMessages s' = <[msg_ts fm := true]> (processedMessages s)
       /\ reports t
          = [(channel_id event, msg_ts fm, "Hey <@" +:+ msg_user fm +:+ ">, ")].
Proof.
  intros Hfresh Hfind Hnew Hnone.
  split; [intros s3; by apply processFiles_empty|].
  destruct (admitted_run W event s fm s2 Hfresh Hfind Hnew)
    as (r & s' & result & s3 & s4 & t & closing & Hrun & Hbatch & Ht & Hp & _).
  rewrite processFiles_empty in Hbatch by done. injection Hbatch as <- _.
  exists r, s', t. split_and!; try done.
  - destruct (handleFileUpload_cases W event s r s' Hrun)
      as [(Hold & _) | (_ & found & s2' & Hfind' & Hcase)]; [congruence|].
    rewrite Hfind in Hfind'. injection Hfind' as <- <-.
    destruct (stopped_at_gate _ _ _ _ _ Hfind) as (Hpm & _).
    destruct Hcase as [(Hin & _) | (_ & Hafter)].
    { rewrite Hpm, Hnew in Hin. by destruct Hin. }
    apply after_admission_ledger in Hafter as (-> & _). by rewrite Hpm.
  - rewrite Hp. unfold summary. simpl. by rewrite !string_app_nil_r.
Qed.

Lemma message_without_files_gets_bare_greeting_witness :
  default [] (msg_files bare_message) = []
  /\ exists r s' t,
       handleFileUpload bare_world Demo.event Demo.start = (r, s')
       /\ trace s' = trace Demo.start ++ t
       /\ processedMessages s'
          = <[msg_ts bare_message := true]> (processedMessages Demo.start)
       /\ reports t = [("C1", "1700000000.000100", "Hey <@U1>, ")].
Proof.
  split; [reflexivity|].
  refine (proj2 (message_without_files_gets_bare_greeting bare_world Demo.event
                   Demo.start bare_message
                   (snd (findFileMessage bare_world Demo.event (record DateNow Demo.start)))
                   _ _ _ _)).
  - vm_compute; reflexivity.
  - vm_compute; reflexivity.
  - vm_compute; reflexivity.
  - reflexivity.
Defined.

(** ** Facts about the upload endpoint *)

(** *** Traces and the last segment of a URL *)

Lemma requests_app h h' : requests (h ++ h') = requests h ++ requests h'.
Proof. apply omap_app. Qed.

Lemma stored_app h h' : stored (h ++ h') = stored h ++ stored h'.
Proof. apply omap_app. Qed.

Lemma reads_app h h' : reads (h ++ h') = (reads h + reads h')%nat.
Proof. unfold reads. by rewrite omap_app, length_app. Qed.

Lemma split_nonempty sep s : split sep s <> [].
Proof.
  destruct s as [|c s]; simpl; [done|].
  destruct (Ascii.eqb c sep); [done|]. by destruct (split sep s).
Qed.

Lemma last_cons {A} (x : A) l d : l <> [] -> List.last (x :: l) d = List.last l d.
Proof. by destruct l. Qed.

Lemma pop_split_cons c s :
  pop (split "/" (String c s))
  = if Ascii.eqb c "/" then pop (split "/" s)
    else match split "/" s with
         | [segment] => String c segment
         | _ => pop (split "/" s)
         end.
Proof.
  unfold pop. cbn [split].
  destruct (Ascii.eqb c "/").
  - apply last_cons, split_nonempty.
  - pose proof (split_nonempty "/" s) as Hne.
    destruct (split "/" s) as [|seg [|seg' segs]]; done.
Qed.

Lemma split_slashless s : Forall slashless (split "/" s).
Proof.
  induction s as [|c s IH]; cbn [split].
  - repeat constructor.
  - destruct (Ascii.eqb c "/") eqn:Hc.
    + constructor; [constructor | done].
    + destruct (split "/" s) as [|seg segs].
      * repeat constructor. by apply Ascii.eqb_neq in Hc.
      * inversion IH; subst. constructor; [|done].
        constructor; [|done]. by apply Ascii.eqb_neq in Hc.
Qed.

Lemma concat_cons sep x l :
  l <> [] -> String.concat sep (x :: l) = x +:+ sep +:+ String.concat sep l.
Proof. by destruct l. Qed.

Lemma split_concat s : String.concat "/" (split "/" s) = s.
Proof.
  induction s as [|c s IH]; cbn [split]; [done|].
  pose proof (split_nonempty "/" s) as Hne.
  destruct (Ascii.eqb c "/") eqn:Hc.
  - apply Ascii.eqb_eq in Hc as ->.
    rewrite concat_cons by done. by rewrite IH.
  - destruct (split "/" s) as [|seg [|seg' segs]]; [done| |].
    + cbn [String.concat] in *. by rewrite IH.
    + rewrite concat_cons by done. rewrite concat_cons in IH by done.
      by rewrite <- IH.
Qed.

Lemma pop_suffix s :
  exists prefix,
    s = prefix +:+ pop (split "/" s)
    /\ (prefix = "" \/ exists p, prefix = p +:+ "/").
Proof.
  induction s as [|c s (prefix & Hs & Hprefix)].
  - exists "". by split; [|left].
  - rewrite pop_split_cons.
    destruct (Ascii.eqb c "/") eqn:Hc.
    + apply Ascii.eqb_eq in Hc as ->.
      exists (String "/" prefix). split.
      * change (String "/" prefix +:+ ?x) with (String "/" (prefix +:+ x)).
        by rewrite <- Hs.
      * right. destruct Hprefix as [->|(p & ->)].
        -- by exists "".
        -- by exists (String "/" p).
    + destruct (split "/" s) as [|seg [|seg' segs]] eqn:Hsplit.
      * by apply split_nonempty in Hsplit.
      * destruct Hprefix as [->|(p & ->)].
        -- exists "". split; [|by left]. unfold pop in Hs. simpl in Hs.
           change ("" +:+ ?x) with x in *. by rewrite <- Hs.
        -- pose proof (split_concat s) as Hjoin. rewrite Hsplit in Hjoin.
           cbn [String.concat] in Hjoin. subst seg.
           pose proof (split_slashless s) as Hall. rewrite Hsplit in Hall.
           inversion Hall as [|? ? Hseg _]; subst.
           unfold pop in Hs. simpl in Hs.
           exfalso. clear -Hs Hseg.
           assert (forall p q, q = (p +:+ "/") +:+ q -> False) as Hlen.
           { intros p' q Heq. apply (f_equal String.length) in Heq.
             rewrite !string_app_length in Heq. simpl in Heq. lia. }
           by apply (Hlen p s).
      * exists (String c prefix). split.
        -- change (String c prefix +:+ ?x) with (String c (prefix +:+ x)).
           by rewrite <- Hs.
        -- right. destruct Hprefix as [->|(p & ->)].
           ++ exfalso. change ("" +:+ ?x) with x in Hs.
              pose proof (split_concat s) as Hjoin. rewrite Hsplit in Hjoin.
              pose proof (split_slashless s) as Hall. rewrite Hsplit in Hall.
              assert (slashless (pop (seg :: seg' :: segs))) as Hpop.
              { unfold pop. clear -Hall.
                assert (forall l, Forall slashless l -> l <> [] ->
                                  slashless (List.last l "")) as Hlast.
                { induction l as [|x [|y l] IHl]; intros Hl Hne; [done| |].
                  - by inversion Hl.
                  - inversion Hl; subst. by apply IHl. }
                by apply Hlast. }
              rewrite <- Hs in Hpop. rewrite <- Hjoin in Hpop.
              cbn [String.concat] in Hpop.
              clear -Hpop. unfold slashless in Hpop.
              induction seg as [|a seg IH]; simpl in Hpop.
              ** by inversion Hpop.
              ** inversion Hpop; subst. by apply IH.
           ++ by exists (String c p).
Qed.

(** *** The runs of the endpoint *)

Section EndpointRuns.

Variable E : Api.Env.

Lemma api_sanitizeFileName_run fileName h :
  Api.sanitizeFileName E fileName h
  = match replace_disallowed fileName with
    | EmptyString => (Api.Ok ("upload_" +:+ dec (Api.clock E h)), h ++ [Api.DateNow])
    | sanitized => (Api.Ok sanitized, h)
    end.
Proof. unfold Api.sanitizeFileName. by destruct (replace_disallowed fileName). Qed.

Lemma uploadEndpoint_run url authorization h :
  let header := Api.header_of authorization in
  let h1 := h ++ [Api.LogDebug "Starting download"] in
  let h2 := h1 ++ [Api.Fetch url header] in
  let failed := [Api.LogError "Upload process failed"] in
  Api.uploadEndpoint E url authorization h
  = match Api.fetch E h1 url header with
    | Api.Rejected t => (Api.Rejected (formatted t), h2 ++ failed)
    | Api.Ok r =>
        if negb (Api.ok r) then (Api.Rejected (formatted (download_failed r)), h2 ++ failed)
        else
          match Api.buffer r with
          | Api.Rejected t => (Api.Rejected (formatted t), h2 ++ failed)
          | Api.Ok bytes =>
              let name := Api.sha1_hex E bytes +:+ "_" +:+ suffix_of E url h2 in
              let h3 := (h2 ++ stamp_of url) ++ [Api.LogDebug ("Uploading: " +:+ name)] in
              let h4 := h3 ++ [Api.Upload "s/v3" name bytes (Api.content_type r)] in
              match Api.uploadToStorage E h3 "s/v3" name bytes (Api.content_type r) with
              | Api.Rejected t => (Api.Rejected (formatted t), h4 ++ failed)
              | Api.Ok u =>
                  match Api.success u with
                  | Some false => (Api.Rejected (formatted (storage_failed u)), h4 ++ failed)
                  | _ =>
                      (Api.Ok {| Api.url := Api.generateUrl E "s/v3" name;
                                 Api.sha := Api.sha1_hex E bytes;
                                 Api.size := length bytes;
                                 Api.type := Api.content_type r |}, h4)
                  end
              end
          end
    end.
Proof.
  intros header h1 h2 failed.
  unfold Api.uploadEndpoint, Api.try_catch, Api.bind, Api.logger_debug,
    Api.logger_error, Api.call, Api.await, Api.throw, Api.ret.
  fold header h1 h2.
  destruct (Api.fetch E h1 url header) as [r|t]; [|done].
  destruct (Api.ok r); simpl negb; cbv iota; [|done].
  destruct (Api.buffer r) as [bytes|t]; [|done].
  cbn [negb]. cbv beta iota zeta. rewrite api_sanitizeFileName_run.
  unfold suffix_of, stamp_of.
  destruct (replace_disallowed (pop (split "/" url))) as [|c rest].
  - destruct (Api.uploadToStorage _ _ _ _ _ _) as [u|t]; [|done].
    by destruct (Api.success u) as [[]|].
  - rewrite app_nil_r.
    destruct (Api.uploadToStorage _ _ _ _ _ _) as [u|t]; [|done].
    by destruct (Api.success u) as [[]|].
Qed.

Lemma handleUpload_run req h :
  Api.handleUpload E req h
  = match url_of req with
    | Api.Rejected t => (Api.Ok (answer_to t), h ++ asked req)
    | Api.Ok url =>
        match Api.uploadEndpoint E url (Api.authorization req) (h ++ asked req) with
        | (Api.Ok result, h') =>
            (Api.Ok {| Api.http_status := 200; Api.http_body := Api.Success result |}, h')
        | (Api.Rejected t, h') => (Api.Ok (answer_to t), h')
        end
    end.
Proof.
  unfold Api.handleUpload, Api.try_catch, Api.bind, Api.call, Api.ret, url_of, asked.
  destruct (Api.body req) as [[|c b]|]; simpl.
  - destruct (Api.text req) as [url|t]; [|done].
    by destruct (Api.uploadEndpoint _ _ _ _) as [[result|t] h'].
  - rewrite app_nil_r.
    by destruct (Api.uploadEndpoint _ _ _ _) as [[result|t] h'].
  - destruct (Api.text req) as [url|t]; [|done].
    by destruct (Api.uploadEndpoint _ _ _ _) as [[result|t] h'].
Qed.

End EndpointRuns.

Lemma last_slashless l :
  Forall slashless l -> l <> [] -> slashless (List.last l "").
Proof.
  induction l as [|x [|y l] IHl]; intros Hl Hne; [done| |].
  - by inversion Hl.
  - inversion Hl; subst. by apply IHl.
Qed.

Lemma pop_slashless s : slashless (pop (split "/" s)).
Proof. apply last_slashless; [apply split_slashless | apply split_nonempty]. Qed.

Lemma number_or_nonzero x : Api.number_or x 500 <> 0.
Proof.
  unfold Api.number_or. destruct x as [n|]; [|done].
  destruct (n =? 0) eqn:Hn; [done|]. by apply Z.eqb_neq in Hn.
Qed.

Lemma string_or_nonempty x fallback : fallback <> "" -> Api.string_or x fallback <> "".
Proof. by destruct x as [[|c s]|]. Qed.

Lemma suffix_of_facts E url h :
  suffix_of E url h <> ""
  /\ safe_name (suffix_of E url h)
  /\ (pop (split "/" url) <> "" ->
      suffix_of E url h = replace_disallowed (pop (split "/" url)))
  /\ (pop (split "/" url) = "" ->
      suffix_of E url h = "upload_" +:+ dec (Api.clock E h)).
Proof.
  unfold suffix_of.
  destruct (replace_disallowed (pop (split "/" url))) as [|c rest] eqn:Hrep.
  - apply (proj1 (replace_disallowed_empty _)) in Hrep. split_and!; try done.
    + apply (safe_name_app "upload_"); [|apply dec_safe].
      repeat constructor; first [ by right | apply allowed_safe; reflexivity ].
  - split_and!; try done.
    + rewrite <- Hrep. apply replace_disallowed_safe.
    + intros Hempty. by rewrite Hempty in Hrep.
Qed.

Lemma stamp_quiet url :
  requests (stamp_of url) = [] /\ stored (stamp_of url) = [].
Proof. unfold stamp_of. by destruct (replace_disallowed _). Qed.

Ltac api_trace :=
  cbn [fst snd];
  rewrite ?requests_app, ?stored_app, ?reads_app;
  rewrite ?(proj1 (stamp_quiet _)), ?(proj2 (stamp_quiet _));
  cbn [requests stored reads omap list_omap length];
  rewrite ?app_nil_r, ?Nat.add_0_r; try done.

(** X16: [handleUpload] never rejects.  It resolves to status 200 with
    the result of the upload, or to an error body whose status is not 0:
    the status code carried by what was thrown, and 500 if that is
    missing or 0. *)
Theorem handleUpload_always_answers (E : Api.Env) (req : Api.Request) (h : Api.Trace) :
  exists resp h',
    Api.handleUpload E req h = (Api.Ok resp, h')
    /\ match Api.http_body resp with
       | Api.Success _ => Api.http_status resp = 200
       | Api.Failure _ => Api.http_status resp <> 0
       end.
Proof.
  rewrite handleUpload_run.
  destruct (url_of req) as [url|t].
  - destruct (Api.uploadEndpoint _ _ _ _) as [[result|t] h'].
    + by eexists _, _.
    + eexists _, _. split; [reflexivity|]. apply number_or_nonzero.
  - eexists _, _. split; [reflexivity|]. apply number_or_nonzero.
Qed.

(** X17: when the origin answers the download with a response that is
    not ok, [handleUpload] answers with the origin's status (if it is not
    0), the message ["Download failed: <statusText>"] and the code
    [INTERNAL_ERROR], and nothing is handed to the storage. *)
Theorem failed_download_keeps_origin_status
  (E : Api.Env) (req : Api.Request) (h : Api.Trace) (url : string) (r : Api.Response) :
  Api.body req = Some url ->
  url <> "" ->
  Api.fetch E (h ++ [Api.LogDebug "Starting download"]) url
    (Api.header_of (Api.authorization req)) = Api.Ok r ->
  Api.ok r = false ->
  Api.status r <> 0 ->
  exists h',
    Api.handleUpload E req h
    = (Api.Ok {| Api.http_status := Api.status r;
                 Api.http_body :=
                   Api.Failure
                     {| Api.error_message := Some ("Download failed: " +:+ Api.statusText r);
                        Api.error_code := "INTERNAL_ERROR";
                        Api.error_details := Some None |} |}, h')
    /\ stored h' = stored h.
Proof.
  intros Hbody Hurl Hfetch Hok Hstatus.
  rewrite handleUpload_run. unfold url_of, asked. rewrite Hbody.
  destruct url as [|c url]; [done|]. rewrite app_nil_r.
  rewrite uploadEndpoint_run. cbv zeta. rewrite Hfetch, Hok. cbn [negb].
  eexists. split.
  - apply Z.eqb_neq in Hstatus.
    unfold answer_to, formatted, download_failed, Api.number_or.
    cbn [Api.statusCode_of Api.statusCode Api.error_of Api.message_of Api.message
         Api.code_of Api.code Api.details_of Api.details Api.string_or].
    by rewrite !Hstatus.
  - api_trace.
Qed.

Lemma failed_download_keeps_origin_status_witness :
  exists h',
    Api.handleUpload (ApiDemo.env ApiDemo.silent)
      (ApiDemo.request "https://origin.example/missing") []
    = (Api.Ok {| Api.http_status := 404;
                 Api.http_body :=
                   Api.Failure
                     {| Api.error_message := Some "Download failed: Not Found";
                        Api.error_code := "INTERNAL_ERROR";
                        Api.error_details := Some None |} |}, h')
    /\ stored h' = stored [].
Proof.
  exact (failed_download_keeps_origin_status (ApiDemo.env ApiDemo.silent)
           (ApiDemo.request "https://origin.example/missing") []
           "https://origin.example/missing" ApiDemo.not_found
           eq_refl ltac:(discriminate) eq_refl eq_refl ltac:(discriminate)).
Defined.

(** X18: whenever [uploadEndpoint] resolves, the origin answered ok, and
    exactly one object was handed to the storage: the downloaded bytes,
    with the content type of the download, in [s/v3], under the name
    [<sha>_<suffix>] that the returned URL is generated from.  The
    returned [sha], [size] and [type] are those of the download.  The
    suffix is not empty and holds only characters of [[A-Za-z0-9.-]] and
    underscores; it is the sanitized text after the last ["/"] of the
    URL when that is not empty. *)
Theorem resolved_upload_stored_the_download
  (E : Api.Env) (url : string) (authorization : option string)
  (h h' : Api.Trace) (result : Api.Uploaded) :
  Api.uploadEndpoint E url authorization h = (Api.Ok result, h') ->
  exists r bytes suffix,
    Api.fetch E (h ++ [Api.LogDebug "Starting download"]) url
      (Api.header_of authorization) = Api.Ok r
    /\ Api.ok r = true
    /\ Api.buffer r = Api.Ok bytes
    /\ result = {| Api.url := Api.generateUrl E "s/v3" (Api.sha1_hex E bytes +:+ "_" +:+ suffix);
                   Api.sha := Api.sha1_hex E bytes;
                   Api.size := length bytes;
                   Api.type := Api.content_type r |}
    /\ stored h'
       = stored h ++ [("s/v3", Api.sha1_hex E bytes +:+ "_" +:+ suffix, bytes,
                       Api.content_type r)]
    /\ suffix <> ""
    /\ safe_name suffix
    /\ (pop (split "/" url) <> "" ->
        suffix = replace_disallowed (pop (split "/" url))).
Proof.
  rewrite uploadEndpoint_run. cbv zeta.
  destruct (Api.fetch E _ url _) as [r|t]; [|done].
  destruct (Api.ok r) eqn:Hok; cbn [negb]; [|done].
  destruct (Api.buffer r) as [bytes|t] eqn:Hbuffer; [|done].
  destruct (Api.uploadToStorage _ _ _ _ _ _) as [u|t]; [|done].
  set (h2 := (h ++ _) ++ _).
  destruct (suffix_of_facts E url h2) as (Hne & Hsafe & Hsan & _).
  intros Hrun.
  assert (result = {| Api.url := Api.generateUrl E "s/v3"
                                   (Api.sha1_hex E bytes +:+ "_" +:+ suffix_of E url h2);
                      Api.sha := Api.sha1_hex E bytes;
                      Api.size := length bytes;
                      Api.type := Api.content_type r |}
          /\ h' = ((h2 ++ stamp_of url)
                   ++ [Api.LogDebug ("Uploading: " +:+ Api.sha1_hex E bytes +:+ "_"
                                     +:+ suffix_of E url h2)])
                  ++ [Api.Upload "s/v3" (Api.sha1_hex E bytes +:+ "_" +:+ suffix_of E url h2)
                        bytes (Api.content_type r)]) as [-> ->].
  { destruct (Api.success u) as [[]|]; [|done|]; by injection Hrun as <- <-. }
  exists r, bytes, (suffix_of E url h2). split_and!; try done.
  subst h2. api_trace.
Qed.

Lemma resolved_upload_stored_the_download_witness :
  exists r bytes suffix,
    Api.fetch (ApiDemo.env ApiDemo.silent) ([] ++ [Api.LogDebug "Starting download"])
      "https://origin.example/a/cat picture.png" (Api.header_of None) = Api.Ok r
    /\ Api.ok r = true
    /\ Api.buffer r = Api.Ok bytes
    /\ {| Api.url := "https://cdn.example/s/v3/" +:+ ApiDemo.empty_sha +:+ "_cat_picture.png";
          Api.sha := ApiDemo.empty_sha; Api.size := 0; Api.type := Some "image/png" |}
       = {| Api.url := Api.generateUrl (ApiDemo.env ApiDemo.silent) "s/v3"
                         (Api.sha1_hex (ApiDemo.env ApiDemo.silent) bytes +:+ "_" +:+ suffix);
            Api.sha := Api.sha1_hex (ApiDemo.env ApiDemo.silent) bytes;
            Api.size := length bytes;
            Api.type := Api.content_type r |}
    /\ stored [Api.LogDebug "Starting download";
               Api.Fetch "https://origin.example/a/cat picture.png" None;
               Api.LogDebug ("Uploading: " +:+ ApiDemo.empty_sha +:+ "_cat_picture.png");
               Api.Upload "s/v3" (ApiDemo.empty_sha +:+ "_cat_picture.png") []
                 (Some "image/png")]
       = stored [] ++ [("s/v3", Api.sha1_hex (ApiDemo.env ApiDemo.silent) bytes +:+ "_" +:+ suffix,
                        bytes, Api.content_type r)]
    /\ suffix <> ""
    /\ safe_name suffix
    /\ (pop (split "/" "https://origin.example/a/cat picture.png") <> "" ->
        suffix = replace_disallowed (pop (split "/" "https://origin.example/a/cat picture.png"))).
Proof.
  exact (resolved_upload_stored_the_download (ApiDemo.env ApiDemo.silent)
           "https://origin.example/a/cat picture.png" None [] _ _ eq_refl).
Defined.

Lemma formatted_shape t :
  exists status e,
    formatted t = Api.Formatted status e
    /\ status <> 0
    /\ Api.error_code e <> ""
    /\ exists d, Api.error_details e = Some d /\ d <> Some "".
Proof.
  eexists _, _. split; [reflexivity|]. split_and!.
  - apply number_or_nonzero.
  - by apply string_or_nonempty.
  - eexists. split; [reflexivity|]. by destruct (Api.details_of t) as [[|c d]|].
Qed.

(** X19: whatever goes wrong inside [uploadEndpoint], what it throws is
    the formatted object and never the error itself: a status that is
    not 0, and an error member with a code that is not empty and a
    [details] property that is present and is null or a non-empty
    value. *)
Theorem uploadEndpoint_throws_only_formatted
  (E : Api.Env) (url : string) (authorization : option string) (h : Api.Trace) :
  match fst (Api.uploadEndpoint E url authorization h) with
  | Api.Ok _ => True
  | Api.Rejected t =>
      exists status e,
        t = Api.Formatted status e
        /\ status <> 0
        /\ Api.error_code e <> ""
        /\ exists d, Api.error_details e = Some d /\ d <> Some ""
  end.
Proof.
  rewrite uploadEndpoint_run. cbv zeta.
  destruct (Api.fetch E _ url _) as [r|t]; [|apply formatted_shape].
  destruct (Api.ok r); cbn [negb]; [|apply formatted_shape].
  destruct (Api.buffer r) as [bytes|t]; [|apply formatted_shape].
  destruct (Api.uploadToStorage _ _ _ _ _ _) as [u|t]; [|apply formatted_shape].
  destruct (Api.success u) as [[]|]; first [done | apply formatted_shape].
Qed.

(** X20: only an explicit [success: false] of the storage is a failure.
    With a download that succeeded and a storage that answers [u],
    [handleUpload] answers 500 with the message
    ["Storage upload failed: <error>"] when [u.success] is [false], and
    200 when it is [true] or missing; in both cases the object had been
    handed to the storage. *)
Theorem storage_answer_decides
  (E : Api.Env) (req : Api.Request) (h : Api.Trace) (url : string)
  (r : Api.Response) (bytes : list Byte.byte) (u : Api.UploadResult) :
  Api.body req = Some url ->
  url <> "" ->
  Api.fetch E (h ++ [Api.LogDebug "Starting download"]) url
    (Api.header_of (Api.authorization req)) = Api.Ok r ->
  Api.ok r = true ->
  Api.buffer r = Api.Ok bytes ->
  (forall h' name, Api.uploadToStorage E h' "s/v3" name bytes (Api.content_type r) = Api.Ok u) ->
  exists resp h' name,
    Api.handleUpload E req h = (Api.Ok resp, h')
    /\ stored h' = stored h ++ [("s/v3", name, bytes, Api.content_type r)]
    /\ match Api.success u with
       | Some false =>
           resp = {| Api.http_status := 500;
                     Api.http_body :=
                       Api.Failure
                         {| Api.error_message :=
                              Some ("Storage upload failed: " +:+ Api.error u);
                            Api.error_code := "INTERNAL_ERROR";
                            Api.error_details := Some None |} |}
       | _ =>
           resp = {| Api.http_status := 200;
                     Api.http_body :=
                       Api.Success
                         {| Api.url := Api.generateUrl E "s/v3" name;
                            Api.sha := Api.sha1_hex E bytes;
                            Api.size := length bytes;
                            Api.type := Api.content_type r |} |}
       end.
Proof.
  intros Hbody Hurl Hfetch Hok Hbuffer Hstorage.
  rewrite handleUpload_run. unfold url_of, asked. rewrite Hbody.
  destruct url as [|c url]; [done|]. rewrite app_nil_r.
  rewrite uploadEndpoint_run. cbv zeta.
  rewrite Hfetch, Hok, Hbuffer, Hstorage. cbn [negb].
  destruct (Api.success u) as [[]|]; eexists _, _, _;
    (split; [reflexivity|]); (split; [api_trace | done]).
Qed.

Lemma storage_answer_decides_witness :
  exists resp h' name,
    Api.handleUpload (ApiDemo.env ApiDemo.refusing)
      (ApiDemo.request "https://origin.example/a.png") [] = (Api.Ok resp, h')
    /\ stored h' = stored [] ++ [("s/v3", name, [], Some "image/png")]
    /\ resp = {| Api.http_status := 500;
                 Api.http_body :=
                   Api.Failure
                     {| Api.error_message :=
                          Some "Storage upload failed: bucket is read-only";
                        Api.error_code := "INTERNAL_ERROR";
                        Api.error_details := Some None |} |}.
Proof.
  exact (storage_answer_decides (ApiDemo.env ApiDemo.refusing)
           (ApiDemo.request "https://origin.example/a.png") []
           "https://origin.example/a.png" ApiDemo.served [] ApiDemo.refusing
           eq_refl ltac:(discriminate) eq_refl eq_refl eq_refl
           (fun _ _ => eq_refl)).
Defined.

(** X21: every call of [uploadEndpoint] requests exactly one download,
    of the given URL; the [Authorization] header is sent exactly when an
    authorization that is not empty was given, and then it is that
    value.  At most one object is handed to the storage, and only in
    [s/v3]. *)
Theorem uploadEndpoint_one_download
  (E : Api.Env) (url : string) (authorization : option string) (h : Api.Trace) :
  let h' := snd (Api.uploadEndpoint E url authorization h) in
  requests h'
  = requests h ++ [(url, match authorization with
                         | Some (String c rest) => Some (String c rest)
                         | _ => None
                         end)]
  /\ (stored h' = stored h
      \/ exists name bytes contentType,
           stored h' = stored h ++ [("s/v3", name, bytes, contentType)]).
Proof.
  cbv zeta. rewrite uploadEndpoint_run. cbv zeta.
  assert (Api.header_of authorization
          = match authorization with
            | Some (String c rest) => Some (String c rest)
            | _ => None
            end) as <- by (by destruct authorization as [[|c rest]|]).
  destruct (Api.fetch E _ url _) as [r|t]; [|split; [api_trace | left; api_trace]].
  destruct (Api.ok r); cbn [negb]; [|split; [api_trace | left; api_trace]].
  destruct (Api.buffer r) as [bytes|t]; [|split; [api_trace | left; api_trace]].
  destruct (Api.uploadToStorage _ _ _ _ _ _) as [u|t].
  - destruct (Api.success u) as [[]|];
      (split; [api_trace | right; eexists _, _, _; api_trace]).
  - split; [api_trace | right; eexists _, _, _; api_trace].
Qed.

(** X22: [handleUpload] takes the URL from the body of the request when
    that is not empty, and then never reads the text of the request;
    otherwise it reads the text once and takes that.  When reading the
    text fails, nothing is downloaded or stored and the answer carries
    the status code of the error (500 if it has none) with the message
    ["Internal server error"]. *)
Theorem handleUpload_url_source (E : Api.Env) (req : Api.Request) (h : Api.Trace) :
  let run := Api.handleUpload E req h in
  let header := Api.header_of (Api.authorization req) in
  match Api.body req with
  | Some (String c rest) =>
      reads (snd run) = reads h
      /\ requests (snd run) = requests h ++ [(String c rest, header)]
  | _ =>
      reads (snd run) = S (reads h)
      /\ match Api.text req with
         | Api.Ok url => requests (snd run) = requests h ++ [(url, header)]
         | Api.Rejected t =>
             requests (snd run) = requests h
             /\ stored (snd run) = stored h
             /\ match t with
                | Api.Raw e =>
                    fst run
                    = Api.Ok {| Api.http_status := Api.number_or (Api.statusCode e) 500;
                                Api.http_body :=
                                  Api.Failure
                                    {| Api.error_message := Some "Internal server error";
                                       Api.error_code := "INTERNAL_ERROR";
                                       Api.error_details := None |} |}
                | Api.Formatted status error =>
                    fst run
                    = Api.Ok {| Api.http_status := Api.number_or (Some status) 500;
                                Api.http_body := Api.Failure error |}
                end
         end
  end.
Proof.
  cbv zeta. rewrite handleUpload_run. unfold url_of, asked.
  assert (forall url h0,
            let h' := snd (Api.uploadEndpoint E url (Api.authorization req) h0) in
            reads h' = reads h0
            /\ requests h'
               = requests h0 ++ [(url, Api.header_of (Api.authorization req))])
    as Hendpoint.
  { intros url h0. cbv zeta. rewrite uploadEndpoint_run. cbv zeta.
    destruct (Api.fetch E _ url _) as [r|t]; [|split; api_trace].
    destruct (Api.ok r); cbn [negb]; [|split; api_trace].
    destruct (Api.buffer r) as [bytes|t]; [|split; api_trace].
    assert (reads (stamp_of url) = 0%nat) as Hstamp
      by (unfold stamp_of; by destruct (replace_disallowed _)).
    destruct (Api.uploadToStorage _ _ _ _ _ _) as [u|t].
    - destruct (Api.success u) as [[]|]; (split; api_trace; rewrite ?Hstamp; lia).
    - split; api_trace; rewrite ?Hstamp; lia. }
  assert (forall url h0,
            snd (match Api.uploadEndpoint E url (Api.authorization req) h0 with
                 | (Api.Ok result, h') =>
                     (Api.Ok {| Api.http_status := 200;
                                Api.http_body := Api.Success result |}, h')
                 | (Api.Rejected t, h') => (Api.Ok (answer_to t), h')
                 end)
            = snd (Api.uploadEndpoint E url (Api.authorization req) h0)) as Hsnd.
  { intros url h0. by destruct (Api.uploadEndpoint _ _ _ _) as [[result|t] h']. }
  destruct (Api.body req) as [[|c b]|].
  - destruct (Api.text req) as [url|t].
    + rewrite Hsnd. destruct (Hendpoint url (h ++ [Api.ReadText])) as [-> ->].
      split; api_trace. lia.
    + split; [api_trace; lia|]. split_and!; [api_trace | api_trace |].
      by destruct t.
  - rewrite Hsnd, app_nil_r. apply Hendpoint.
  - destruct (Api.text req) as [url|t].
    + rewrite Hsnd. destruct (Hendpoint url (h ++ [Api.ReadText])) as [-> ->].
      split; api_trace. lia.
    + split; [api_trace; lia|]. split_and!; [api_trace | api_trace |].
      by destruct t.
Qed.

(** X23: the original name that [uploadEndpoint] takes from a URL,
    [url.split('/').pop()], is the text after the last ["/"]: the URL is
    a prefix followed by that name, the prefix is empty or ends with
    ["/"], and the name holds no ["/"].  Joining the segments of the
    split with ["/"] gives the URL back. *)
Theorem originalName_is_last_segment (url : string) :
  String.concat "/" (split "/" url) = url
  /\ slashless (pop (split "/" url))
  /\ exists prefix,
       url = prefix +:+ pop (split "/" url)
       /\ (prefix = "" \/ exists p, prefix = p +:+ "/").
Proof.
  split; [apply split_concat|]. split; [apply pop_slashless | apply pop_suffix].
Qed.
